(** * AES.py: table-driven AES-128 (CBC) decryption class over hex strings

    A shallow embedding of [assets/7/AES.py].  The class keeps every
    buffer as a Python [str] of hexadecimal digits, two per byte; the
    primitives convert to integers with [int(s, 16)] and back with
    [format(v, "x").zfill(n)].  Python exceptions are modelled by the
    [Raise] branch of a result type, the attributes of the object by a
    record, and the in-place table updates of [readTables] by explicit
    state passing. *)

From Stdlib Require Import ZArith List Ascii String Bool Lia.
Import ListNotations.
Local Open Scope Z_scope.

(** ** Python values and exceptions *)

(** A Python [str], restricted to code points below 256. *)
Definition str := list ascii.

Definition hs (s : string) : str := list_ascii_of_string s.

Definition len {A : Type} (l : list A) : Z := Z.of_nat (List.length l).

(** A list cell that holds either [None] or a string, as the lists built
    by [[None for x in range(n)]] do. *)
Definition cell := option str.

Inductive exn : Set :=
| ValueError
| NameError
| IndexError
| TypeError
| AttributeError
| ZeroDivisionError
| FileNotFoundError.

Inductive Res (A : Type) : Type :=
| Ok (a : A)
| Raise (e : exn).

Arguments Ok {A} a.
Arguments Raise {A} e.

Definition bind {A B : Type} (m : Res A) (k : A -> Res B) : Res B :=
  match m with
  | Ok a => k a
  | Raise e => Raise e
  end.

Notation "x <- m ;; k" := (bind m (fun x => k))
  (at level 61, m at next level, right associativity).

Definition succeeds {A : Type} (m : Res A) : Prop := exists a, m = Ok a.

(** ** Builtins used by the class *)

(** Index normalisation of a slice bound: negative bounds count from the
    end, and every bound is clamped to [0, len]. *)
Definition clamp (l i : Z) : Z :=
  if i <? 0 then Z.max (l + i) 0 else Z.min i l.

(** [s[a:b]] *)
Definition slice {A : Type} (s : list A) (a b : Z) : list A :=
  let a' := clamp (len s) a in
  let b' := clamp (len s) b in
  firstn (Z.to_nat (b' - a')) (skipn (Z.to_nat a') s).

(** [s[a:]] and [s[:b]] *)
Definition slice_from {A : Type} (s : list A) (a : Z) : list A :=
  skipn (Z.to_nat (clamp (len s) a)) s.

Definition slice_to {A : Type} (s : list A) (b : Z) : list A :=
  firstn (Z.to_nat (clamp (len s) b)) s.

(** [l[i]] on a list: [IndexError] outside [-len, len). *)
Definition getitem {A : Type} (l : list A) (i : Z) : Res A :=
  let j := if i <? 0 then i + len l else i in
  if (j <? 0) || (len l <=? j) then Raise IndexError
  else match nth_error l (Z.to_nat j) with
       | Some x => Ok x
       | None => Raise IndexError
       end.

Fixpoint update {A : Type} (l : list A) (n : nat) (v : A) : list A :=
  match l, n with
  | [], _ => []
  | _ :: t, O => v :: t
  | h :: t, S n' => h :: update t n' v
  end.

(** [l[i] = v] on a list: [IndexError] outside [-len, len). *)
Definition setitem {A : Type} (l : list A) (i : Z) (v : A) : Res (list A) :=
  let j := if i <? 0 then i + len l else i in
  if (j <? 0) || (len l <=? j) then Raise IndexError
  else Ok (update l (Z.to_nat j) v).

(** [range(n)] and [range(a, b)] *)
Definition range2 (a b : Z) : list Z :=
  map (fun k => a + Z.of_nat k) (seq 0 (Z.to_nat (b - a))).

Definition range (n : Z) : list Z := range2 0 n.

(** Value of a hexadecimal digit, either case. *)
Definition hexval (c : ascii) : option Z :=
  let n := Z.of_N (N_of_ascii c) in
  if (48 <=? n) && (n <=? 57) then Some (n - 48)
  else if (97 <=? n) && (n <=? 102) then Some (n - 87)
  else if (65 <=? n) && (n <=? 70) then Some (n - 55)
  else None.

Fixpoint int16_acc (s : str) (acc : Z) : Res Z :=
  match s with
  | [] => Ok acc
  | c :: s' =>
      match hexval c with
      | Some d => int16_acc s' (16 * acc + d)
      | None => Raise ValueError
      end
  end.

(** [int(s, 16)] on strings of hexadecimal digits: the empty string and any
    other character raise [ValueError].  The further literal forms that
    [int] accepts (a sign, a [0x] prefix, underscores between digits,
    surrounding white space) are not part of this model: every statement
    below about a parsed value assumes [is_hex] of the string, or parses
    a literal of hex digits. *)
Definition int16 (s : str) : Res Z :=
  match s with
  | [] => Raise ValueError
  | _ => int16_acc s 0
  end.

(** Lower-case digit of a value in 0..15. *)
Definition hexchar (d : Z) : ascii :=
  ascii_of_N (Z.to_N (if d <? 10 then 48 + d else 87 + d)).

Fixpoint hexdigits (fuel : nat) (z : Z) (acc : str) : str :=
  match fuel with
  | O => acc
  | S f =>
      if z =? 0 then acc
      else hexdigits f (z / 16) (hexchar (z mod 16) :: acc)
  end.

(** Enough fuel for every digit of [z]: its number of bits. *)
Definition bits (z : Z) : nat := S (Z.to_nat (Z.log2 z)).

(** [format(z, "x")] *)
Definition format_x (z : Z) : str :=
  if z =? 0 then hs "0"
  else if z <? 0 then "-"%char :: hexdigits (bits (- z)) (- z) []
  else hexdigits (bits z) z [].

Definition is_sign (c : ascii) : bool :=
  (Ascii.eqb c "+") || (Ascii.eqb c "-").

(** [s.zfill(width)]: zeros go after a leading sign. *)
Definition zfill (s : str) (width : Z) : str :=
  let fill := repeat "0"%char (Z.to_nat (width - len s)) in
  match s with
  | c :: r => if is_sign c then c :: fill ++ r else fill ++ s
  | [] => fill
  end.

(** ** The object *)

Record AES : Type := mkAES {
  sbox : list cell;
  sboxInv : list cell;
  mult09 : list cell;
  mult0B : list cell;
  mult0D : list cell;
  mult0E : list cell;
  IV : str;
  Rcon : option (list str);       (* [None]: attribute not assigned yet *)
  Rkey : option (list cell)       (* [None]: attribute not assigned yet *)
}.

Definition set_sbox (self : AES) (t : list cell) : AES :=
  mkAES t (sboxInv self) (mult09 self) (mult0B self) (mult0D self)
        (mult0E self) (IV self) (Rcon self) (Rkey self).

Definition set_sboxInv (self : AES) (t : list cell) : AES :=
  mkAES (sbox self) t (mult09 self) (mult0B self) (mult0D self)
        (mult0E self) (IV self) (Rcon self) (Rkey self).

Definition set_mult09 (self : AES) (t : list cell) : AES :=
  mkAES (sbox self) (sboxInv self) t (mult0B self) (mult0D self)
        (mult0E self) (IV self) (Rcon self) (Rkey self).

Definition set_mult0B (self : AES) (t : list cell) : AES :=
  mkAES (sbox self) (sboxInv self) (mult09 self) t (mult0D self)
        (mult0E self) (IV self) (Rcon self) (Rkey self).

Definition set_mult0D (self : AES) (t : list cell) : AES :=
  mkAES (sbox self) (sboxInv self) (mult09 self) (mult0B self) t
        (mult0E self) (IV self) (Rcon self) (Rkey self).

Definition set_mult0E (self : AES) (t : list cell) : AES :=
  mkAES (sbox self) (sboxInv self) (mult09 self) (mult0B self)
        (mult0D self) t (IV self) (Rcon self) (Rkey self).

Definition set_Rcon (self : AES) (r : list str) : AES :=
  mkAES (sbox self) (sboxInv self) (mult09 self) (mult0B self)
        (mult0D self) (mult0E self) (IV self) (Some r) (Rkey self).

Definition set_Rkey (self : AES) (r : list cell) : AES :=
  mkAES (sbox self) (sboxInv self) (mult09 self) (mult0B self)
        (mult0D self) (mult0E self) (IV self) (Rcon self) (Some r).

(** ** Methods that only read the object *)

(** [rot(string, n, w)] *)
Definition rot (s : str) (n w : Z) : Res str :=
  if w =? 0 then Raise ZeroDivisionError
  else let n := n mod w in Ok (slice_from s n ++ slice_to s n).

(** [xor(text1, text2, length)] *)
Definition xor (text1 text2 : str) (length : Z) : Res str :=
  a <- int16 text1 ;;
  b <- int16 text2 ;;
  Ok (zfill (format_x (Z.lxor a b)) length).

(** One pass of the substitution loop: [res += table[int(bytes[2i:2i+2], 16)]]. *)
Fixpoint subst_loop (table : list cell) (bytes : str) (idx : list Z)
         (res : str) : Res str :=
  match idx with
  | [] => Ok res
  | i :: rest =>
      v <- int16 (slice bytes (i * 2) (i * 2 + 2)) ;;
      c <- getitem table v ;;
      match c with
      | Some s => subst_loop table bytes rest (res ++ s)
      | None => Raise TypeError
      end
  end.

(** [subByte(bytes, length)] *)
Definition subByte (self : AES) (bytes : str) (length : Z) : Res str :=
  subst_loop (sbox self) bytes (range length) [].

(** [subByteInv(bytes, length)] *)
Definition subByteInv (self : AES) (bytes : str) (length : Z) : Res str :=
  subst_loop (sboxInv self) bytes (range length) [].

(** The loop of [padInv]: [Some plain] is the early [return plain]. *)
Fixpoint padInv_loop (plain : str) (l pad : Z) (idx : list Z)
  : Res (option str) :=
  match idx with
  | [] => Ok None
  | i :: rest =>
      cur <- int16 (slice plain (l - 2 - i * 2) (l - i * 2)) ;;
      if cur =? pad then padInv_loop plain l pad rest
      else Ok (Some plain)
  end.

(** [padInv(plain)] *)
Definition padInv (plain : str) : Res str :=
  let l := len plain in
  pad <- int16 (slice plain (l - 2) l) ;;
  early <- padInv_loop plain l pad (range pad) ;;
  match early with
  | Some r => Ok r
  | None => Ok (slice plain 0 (l - pad * 2))
  end.

(** [Rkey[i-1][a:b]] on the local list of [expandKey]. *)
Definition word_of (Rkey : list cell) (i a b : Z) : Res str :=
  c <- getitem Rkey i ;;
  match c with
  | Some k => Ok (slice k a b)
  | None => Raise TypeError
  end.

(** The body of the [for] loop of [expandKey]. *)
Definition expandKey_step (self : AES) (Rkey : list cell) (i : Z)
  : Res (list cell) :=
  w0 <- word_of Rkey (i - 1) 0 8 ;;
  w1 <- word_of Rkey (i - 1) 8 16 ;;
  w2 <- word_of Rkey (i - 1) 16 24 ;;
  w3 <- word_of Rkey (i - 1) 24 32 ;;
  r <- rot w3 2 8 ;;
  s <- subByte self r 4 ;;
  rc <- match Rcon self with
        | Some t => getitem t i
        | None => Raise AttributeError
        end ;;
  t <- xor s rc 8 ;;
  Rw0 <- xor w0 t 8 ;;
  Rw1 <- xor w1 Rw0 8 ;;
  Rw2 <- xor w2 Rw1 8 ;;
  Rw3 <- xor w3 Rw2 8 ;;
  setitem Rkey i (Some (Rw0 ++ Rw1 ++ Rw2 ++ Rw3)).

Fixpoint expandKey_loop (self : AES) (Rkey : list cell) (idx : list Z)
  : Res (list cell) :=
  match idx with
  | [] => Ok Rkey
  | i :: rest =>
      Rkey' <- expandKey_step self Rkey i ;;
      expandKey_loop self Rkey' rest
  end.

(** [expandKey(key)] *)
Definition expandKey (self : AES) (key : str) : Res (list cell) :=
  let Rkey := repeat (@None str) 11 in
  Rkey <- setitem Rkey 0 (Some key) ;;
  expandKey_loop self Rkey (range2 1 (len Rkey)).

(** [shiftRowsInv(bytes)]: the body is the single statement
    [return shifted], and no name [shifted] is bound anywhere. *)
Definition shiftRowsInv (self : AES) (bytes : str) : Res str :=
  Raise NameError.

(** [mixColumnsInv(bytes)]: [return mixed], with [mixed] unbound. *)
Definition mixColumnsInv (self : AES) (bytes : str) : Res str :=
  Raise NameError.

(** [decryptBlock(block)]: the body is [return block]. *)
Definition decryptBlock (self : AES) (block : str) : Res str :=
  Ok block.

(** [decrypt(cipher)]: [return plain], with [plain] unbound. *)
Definition decrypt (self : AES) (cipher : str) : Res str :=
  Raise NameError.

(** ** Methods that update the object *)

(** The file [./tables.txt] as [open] and
    [f.read().replace("\t", "").splitlines()] deliver it: [None] when it
    cannot be opened, otherwise its lines with the tabs removed. *)
Definition resource := option (list str).

(** State and exception together: an exception leaves the updates made
    before it in place, as an in-place list store does. *)
Definition M (A : Type) : Type := AES -> Res A * AES.

Definition bindM {A B : Type} (m : M A) (k : A -> M B) : M B :=
  fun self =>
    match m self with
    | (Ok a, self') => k a self'
    | (Raise e, self') => (Raise e, self')
    end.

Definition liftM {A : Type} (r : Res A) : M A := fun self => (r, self).

Notation "x <~ m ;; k" := (bindM m (fun x => k))
  (at level 61, m at next level, right associativity).

(** [self.table[i] = line[a:b]] *)
Definition store (get : AES -> list cell) (set : AES -> list cell -> AES)
           (tables : list str) (i a b : Z) : M unit :=
  fun self =>
    match getitem tables i with
    | Raise e => (Raise e, self)
    | Ok line =>
        match setitem (get self) i (Some (slice line a b)) with
        | Ok t => (Ok tt, set self t)
        | Raise e => (Raise e, self)
        end
    end.

Fixpoint readTables_loop (tables : list str) (idx : list Z) : M unit :=
  match idx with
  | [] => liftM (Ok tt)
  | i :: rest =>
      _ <~ store sbox set_sbox tables i 2 4 ;;
      _ <~ store sboxInv set_sboxInv tables i 4 6 ;;
      _ <~ store mult09 set_mult09 tables i 10 12 ;;
      _ <~ store mult0B set_mult0B tables i 12 14 ;;
      _ <~ store mult0D set_mult0D tables i 14 16 ;;
      _ <~ store mult0E set_mult0E tables i 16 18 ;;
      readTables_loop tables rest
  end.

(** [readTables()] *)
Definition readTables (file : resource) : M unit :=
  fun self =>
    match file with
    | None => (Raise FileNotFoundError, self)
    | Some lines => readTables_loop (slice_from lines 2) (range 256) self
    end.

Definition Rcon_init : list str :=
  map hs ["0"; "01000000"; "02000000"; "04000000"; "08000000"; "10000000";
          "20000000"; "40000000"; "80000000"; "1B000000"; "36000000"]%string.

(** The object [__init__] starts from: six tables of 256 [None], the
    [IV], and no [Rcon] or [Rkey] attribute yet. *)
Definition blank_self (iv : str) : AES :=
  let blank := repeat (@None str) 256 in
  mkAES blank blank blank blank blank blank iv None None.

(** [AES(key, IV)]: the constructor. *)
Definition init (file : resource) (key iv : str) : Res AES :=
  match readTables file (blank_self iv) with
  | (Raise e, _) => Raise e
  | (Ok _, self) =>
      let self := set_Rcon self Rcon_init in
      Rkey <- expandKey self key ;;
      Ok (set_Rkey self Rkey)
  end.

(** A method call on a constructed object, and what it returns. *)
Inductive call : Type :=
| ReadTables
| ExpandKey (key : str)
| PadInv (plain : str)
| Rot (s : str) (n w : Z)
| Xor (text1 text2 : str) (length : Z)
| SubByte (bytes : str) (length : Z)
| SubByteInv (bytes : str) (length : Z)
| ShiftRowsInv (bytes : str)
| MixColumnsInv (bytes : str)
| DecryptBlock (block : str)
| Decrypt (cipher : str).

Inductive retval : Type :=
| VNone
| VStr (s : str)
| VList (l : list cell).

Definition invoke (file : resource) (c : call) : M retval :=
  match c with
  | ReadTables => _ <~ readTables file ;; liftM (Ok VNone)
  | ExpandKey key => fun self => (bind (expandKey self key) (fun l => Ok (VList l)), self)
  | PadInv plain => liftM (bind (padInv plain) (fun s => Ok (VStr s)))
  | Rot s n w => liftM (bind (rot s n w) (fun s => Ok (VStr s)))
  | Xor a b n => liftM (bind (xor a b n) (fun s => Ok (VStr s)))
  | SubByte b n => fun self => (bind (subByte self b n) (fun s => Ok (VStr s)), self)
  | SubByteInv b n => fun self => (bind (subByteInv self b n) (fun s => Ok (VStr s)), self)
  | ShiftRowsInv b => fun self => (bind (shiftRowsInv self b) (fun s => Ok (VStr s)), self)
  | MixColumnsInv b => fun self => (bind (mixColumnsInv self b) (fun s => Ok (VStr s)), self)
  | DecryptBlock b => fun self => (bind (decryptBlock self b) (fun s => Ok (VStr s)), self)
  | Decrypt c => fun self => (bind (decrypt self c) (fun s => Ok (VStr s)), self)
  end.

(** The object after a sequence of calls; a call that raises is caught
    by the caller and the sequence goes on. *)
Fixpoint run (file : resource) (cs : list call) (self : AES) : AES :=
  match cs with
  | [] => self
  | c :: rest => run file rest (snd (invoke file c self))
  end.

(** ** The lookup tables *)

(** Modelled from the spec: the AES standard S-box of §4.1, the content of
    the table resource, which is not among the sources.  Two lower-case
    digits per entry, entries 0..255 in order. *)
Definition SBOX_HEX : str := hs
 ("637c777bf26b6fc53001672bfed7ab76ca82c97dfa5947f0add4a2af9ca472c0" ++
  "b7fd9326363ff7cc34a5e5f171d8311504c723c31896059a071280e2eb27b275" ++
  "09832c1a1b6e5aa0523bd6b329e32f8453d100ed20fcb15b6acbbe394a4c58cf" ++
  "d0efaafb434d338545f9027f503c9fa851a3408f929d38f5bcb6da2110fff3d2" ++
  "cd0c13ec5f974417c4a77e3d645d197360814fdc222a908846eeb814de5e0bdb" ++
  "e0323a0a4906245cc2d3ac629195e479e7c8376d8dd54ea96c56f4ea657aae08" ++
  "ba78252e1ca6b4c6e8dd741f4bbd8b8a703eb5664803f60e613557b986c11d9e" ++
  "e1f8981169d98e949b1e87e9ce5528df8ca1890dbfe6426841992d0fb054bb16")%string.

Definition hex2 (b : Z) : str := [hexchar (b / 16); hexchar (b mod 16)].

Definition SBox (b : Z) : Z :=
  match int16 (slice SBOX_HEX (2 * b) (2 * b + 2)) with
  | Ok v => v
  | Raise _ => 0
  end.

(** Inverse of the S-box by search. *)
Definition InvSBox (b : Z) : Z :=
  match find (fun x => SBox x =? b) (range 256) with
  | Some x => x
  | None => 0
  end.

(** Doubling in GF(2^8) modulo x^8+x^4+x^3+x+1. *)
Definition xtime (a : Z) : Z :=
  let d := 2 * a in if d <? 256 then d else Z.lxor (d - 256) 27.

(** Multiplication by the constants the tables hold. *)
Definition gmul (c a : Z) : Z :=
  let a2 := xtime a in
  let a4 := xtime a2 in
  let a8 := xtime a4 in
  Z.lxor (if Z.testbit c 0 then a else 0)
    (Z.lxor (if Z.testbit c 1 then a2 else 0)
       (Z.lxor (if Z.testbit c 2 then a4 else 0)
               (if Z.testbit c 3 then a8 else 0))).

(** Modelled from the spec: a table resource whose rows carry the tables
    of §4.1 at the columns [readTables] slices (index, SBox, InverseSBox,
    multiples by 2, 3, 9, 11, 13, 14), below two heading lines. *)
Definition table_row (i : Z) : str :=
  hex2 i ++ hex2 (SBox i) ++ hex2 (InvSBox i) ++ hex2 (gmul 2 i)
    ++ hex2 (gmul 3 i) ++ hex2 (gmul 9 i) ++ hex2 (gmul 11 i)
    ++ hex2 (gmul 13 i) ++ hex2 (gmul 14 i).

Definition tables_txt : resource :=
  Some (hs "AES tables" :: hs "x S Si 02 03 09 0B 0D 0E"
          :: map table_row (range 256)).

(** ** Predicates on hex strings and the byte view of a buffer *)

Definition is_hexdigit (c : ascii) : bool :=
  match hexval c with Some _ => true | None => false end.

Definition is_lowerdigit (c : ascii) : bool :=
  match hexval c with Some d => Ascii.eqb (hexchar d) c | None => false end.

Definition is_hex (s : str) : bool := forallb is_hexdigit s.

Definition is_lower_hex (s : str) : bool := forallb is_lowerdigit s.

Definition nib (c : ascii) : Z :=
  match hexval c with Some d => d | None => 0 end.

Definition nibbles (s : str) : list Z := map nib s.

(** Big-endian value of a digit list in base 16. *)
Definition value (ds : list Z) : Z :=
  fold_left (fun acc d => 16 * acc + d) ds 0.

Definition zipxor (a b : list Z) : list Z :=
  map (fun p => Z.lxor (fst p) (snd p)) (combine a b).

(** Digit-by-digit exclusive-or of two hex strings, in lower case. *)
Definition xor_digits (a b : str) : str :=
  map hexchar (zipxor (nibbles a) (nibbles b)).

(** The bytes a hex string stands for, two digits per byte. *)
Fixpoint bytes_of_hex (s : str) : list Z :=
  match s with
  | h :: l :: r => (16 * nib h + nib l) :: bytes_of_hex r
  | _ => []
  end.

Definition hex_of_bytes (bs : list Z) : str := flat_map hex2 bs.

Definition is_byte (b : Z) : Prop := 0 <= b < 256.

(** A table as [readTables] leaves it when the resource is well formed:
    256 cells, each a string of two hex digits. *)
Definition cell_ok (c : cell) : bool :=
  match c with
  | Some s => is_hex s && (List.length s =? 2)%nat
  | None => false
  end.

Definition table_ok (t : list cell) : bool :=
  (List.length t =? 256)%nat && forallb cell_ok t.

(** The byte-to-byte mapping a table holds. *)
Definition table_byte (t : list cell) (b : Z) : Z :=
  match nth_error t (Z.to_nat b) with
  | Some (Some s) => value (nibbles s)
  | _ => 0
  end.

(** ** The key schedule as the specification words it (§4.2), on bytes *)

Module Spec.

Definition Word := list Z.

Definition XOR (a b : list Z) : list Z := zipxor a b.

(** Left rotation by [n] bytes, wrapping around. *)
Definition RotateWord (w : Word) (n : nat) : Word :=
  skipn (n mod List.length w) w ++ firstn (n mod List.length w) w.

Definition SubstituteBytes (w : list Z) (table : Z -> Z) : list Z :=
  map table w.

Definition RoundConstant (i : Z) : Word :=
  [nth (Z.to_nat (i - 1)) [1; 2; 4; 8; 16; 32; 64; 128; 27; 54] 0; 0; 0; 0].

Definition word (k : list Z) (j : nat) : Word := firstn 4 (skipn (4 * j) k).

Definition NextRoundKey (table : Z -> Z) (i : Z) (k : list Z) : list Z :=
  let w0 := word k 0 in
  let w1 := word k 1 in
  let w2 := word k 2 in
  let w3 := word k 3 in
  let t := RotateWord w3 1 in
  let t := SubstituteBytes t table in
  let t := XOR t (RoundConstant i) in
  let w0' := XOR w0 t in
  let w1' := XOR w1 w0' in
  let w2' := XOR w2 w1' in
  let w3' := XOR w3 w2' in
  w0' ++ w1' ++ w2' ++ w3'.

(** Row [r] of the 4x4 column-major State: bytes [r], [4+r], [8+r], [12+r]. *)
Definition row (st : list Z) (r : nat) : list Z :=
  map (fun c => nth (4 * c + r) st 0) [0; 1; 2; 3]%nat.

(** Cyclic right shift of a row by [n] positions. *)
Definition shift_right (rw : list Z) (n : nat) : list Z :=
  skipn (List.length rw - n) rw ++ firstn (List.length rw - n) rw.

(** InverseShiftRows of §4.4: byte (column c, row r) of the result is
    byte c of row r shifted right by r. *)
Definition InverseShiftRows (st : list Z) : list Z :=
  map (fun i => nth (i / 4) (shift_right (row st (i mod 4)) (i mod 4)) 0)
      (seq 0 16).

End Spec.

(** ** Auxiliary definitions for the proofs *)

(** Digit values: every entry in 0..15. *)
Definition nibs_ok (ds : list Z) : Prop := Forall (fun d => 0 <= d < 16) ds.

(** A digit list without its leading zeros. *)
Fixpoint strip0 (ds : list Z) : list Z :=
  match ds with
  | d :: r => if d =? 0 then strip0 r else ds
  | [] => []
  end.

(** The string a table holds at index [b]. *)
Definition table_str (t : list cell) (b : Z) : str :=
  match nth_error t (Z.to_nat b) with
  | Some (Some s) => s
  | _ => []
  end.

(** The byte the loop reads at index [i] of its input. *)
Definition byte_at (bytes : str) (i : Z) : Z :=
  value (nibbles (slice bytes (i * 2) (i * 2 + 2))).

(** One iteration of the loop of [expandKey] on the previous round key
    [prev] with round constant [rc], all exclusive-ors taken digit by digit. *)
Definition next_key (t : list cell) (rc prev : str) : str :=
  let w0 := firstn 8 prev in
  let w1 := firstn 8 (skipn 8 prev) in
  let w2 := firstn 8 (skipn 16 prev) in
  let w3 := firstn 8 (skipn 24 prev) in
  let r := skipn 2 w3 ++ firstn 2 w3 in
  let s := flat_map (fun i => table_str t (byte_at r i)) [0; 1; 2; 3] in
  let t := xor_digits s rc in
  let Rw0 := xor_digits w0 t in
  let Rw1 := xor_digits w1 Rw0 in
  let Rw2 := xor_digits w2 Rw1 in
  let Rw3 := xor_digits w3 Rw2 in
  Rw0 ++ Rw1 ++ Rw2 ++ Rw3.

(** The rotated fourth word. *)
Definition rot_word (prev : str) : str :=
  skipn 2 (firstn 8 (skipn 24 prev)) ++ firstn 2 (firstn 8 (skipn 24 prev)).

(** The substituted rotated word. *)
Definition sub_word (t : list cell) (prev : str) : str :=
  flat_map (fun i => table_str t (byte_at (rot_word prev) i)) [0; 1; 2; 3].

(** [Rcon[i]] as the constructor sets it. *)
Definition rcon_at (i : Z) : str := nth (Z.to_nat i) Rcon_init [].

(** The round keys that follow [prev], one per index of [idx]. *)
Fixpoint schedule_from (t : list cell) (prev : str) (idx : list Z) : list str :=
  match idx with
  | [] => []
  | i :: rest =>
      let k := next_key t (rcon_at i) prev in k :: schedule_from t k rest
  end.

(** The eleven round keys in closed form. *)
Definition schedule (t : list cell) (key : str) : list str :=
  key :: schedule_from t key [1; 2; 3; 4; 5; 6; 7; 8; 9; 10].

(** The indices [range] yields from [a] on, [m] of them. *)
Definition offsets (a m : nat) : list Z :=
  map (fun k => 0 + Z.of_nat k) (seq a m).

(** Known-answer data of §8. *)
Definition kat_key : str := hs "000102030405060708090a0b0c0d0e0f".
Definition kat_plain : str := hs "00112233445566778899aabbccddeeff".
Definition kat_cipher : str := hs "69c4e0d86a7b0430d8cdb78070b4c55a".
Definition kat_iv : str := hs "00000000000000000000000000000000".

(** The object built from the known-answer key over the standard tables. *)
Definition kat_aes : AES :=
  match init tables_txt kat_key kat_iv with
  | Ok aes => aes
  | Raise _ => blank_self kat_iv
  end.

(** ** Auxiliary definitions for the further properties *)

(** The standard table file and the object built from it with the
    known-answer key, both evaluated once: [std_txt] is [tables_txt] and
    [std_aes] is [kat_aes], as literal data. *)
Definition std_txt : resource := Eval vm_compute in tables_txt.

Definition std_aes : AES := Eval vm_compute in kat_aes.

(** The two tables undo each other on every byte. *)
Definition tables_inverse (sb inv : list cell) : bool :=
  forallb (fun b => table_byte inv (table_byte sb b) =? b) (range 256).

(** The cell [readTables] stores for a row: its characters [a, b). *)
Definition column (a b : Z) (row : str) : cell := Some (slice row a b).

(** A table whose first [i] cells were read from the rows. *)
Definition filled (a b : Z) (rows : list str) (i : nat) (old : list cell)
  : list cell :=
  map (column a b) (firstn i rows) ++ skipn i old.

(** The object after [readTables] has stored rows 0..i-1. *)
Definition loaded (rows : list str) (i : nat) (self : AES) : AES :=
  mkAES (filled 2 4 rows i (sbox self)) (filled 4 6 rows i (sboxInv self))
        (filled 10 12 rows i (mult09 self)) (filled 12 14 rows i (mult0B self))
        (filled 14 16 rows i (mult0D self)) (filled 16 18 rows i (mult0E self))
        (IV self) (Rcon self) (Rkey self).

(** All six tables have [n] cells. *)
Definition tables_sized (n : nat) (self : AES) : Prop :=
  List.length (sbox self) = n /\ List.length (sboxInv self) = n /\
  List.length (mult09 self) = n /\ List.length (mult0B self) = n /\
  List.length (mult0D self) = n /\ List.length (mult0E self) = n.



Definition set_IV (self : AES) (iv : str) : AES :=
  mkAES (sbox self) (sboxInv self) (mult09 self) (mult0B self)
        (mult0D self) (mult0E self) iv (Rcon self) (Rkey self).

(** * Properties *)

(** ** Digits *)

Lemma hexval_range (c : ascii) (d : Z) : hexval c = Some d -> 0 <= d < 16.
Proof.
  unfold hexval.
  repeat match goal with
         | |- context [if ?b then _ else _] => destruct b eqn:?
         end; intros [= E];
    repeat match goal with
           | H : (_ && _) = true |- _ => apply andb_true_iff in H as [? ?]
           | H : (_ <=? _) = true |- _ => apply Z.leb_le in H
           end; lia.
Qed.

Lemma nibble_cases (d : Z) :
  0 <= d < 16 ->
  In d [0; 1; 2; 3; 4; 5; 6; 7; 8; 9; 10; 11; 12; 13; 14; 15].
Proof. intros H. simpl. lia. Qed.

Lemma hexval_hexchar (d : Z) : 0 <= d < 16 -> hexval (hexchar d) = Some d.
Proof.
  intros H. apply nibble_cases in H. simpl in H.
  repeat (destruct H as [<- | H]; [reflexivity|]). contradiction.
Qed.

Lemma hexchar_not_sign (d : Z) : 0 <= d < 16 -> is_sign (hexchar d) = false.
Proof.
  intros H. apply nibble_cases in H. simpl in H.
  repeat (destruct H as [<- | H]; [reflexivity|]). contradiction.
Qed.

Lemma is_hexdigit_nib (c : ascii) :
  is_hexdigit c = true -> hexval c = Some (nib c) /\ 0 <= nib c < 16.
Proof.
  unfold is_hexdigit, nib. destruct (hexval c) eqn:E; [|discriminate].
  intros _. split; [reflexivity|]. eapply hexval_range; eassumption.
Qed.

Lemma is_lowerdigit_hexdigit (c : ascii) :
  is_lowerdigit c = true -> is_hexdigit c = true.
Proof. unfold is_lowerdigit, is_hexdigit. destruct (hexval c); auto. Qed.

Lemma is_lowerdigit_hexchar (c : ascii) :
  is_lowerdigit c = true -> hexchar (nib c) = c.
Proof.
  unfold is_lowerdigit, nib. destruct (hexval c); [|discriminate].
  apply Ascii.eqb_eq.
Qed.

Lemma hexchar_lowerdigit (d : Z) : 0 <= d < 16 -> is_lowerdigit (hexchar d) = true.
Proof.
  intros H. unfold is_lowerdigit. rewrite (hexval_hexchar d H).
  apply Ascii.eqb_refl.
Qed.

Lemma nib_hexchar (d : Z) : 0 <= d < 16 -> nib (hexchar d) = d.
Proof. intros H. unfold nib. now rewrite hexval_hexchar. Qed.

Lemma is_hex_cons (c : ascii) (s : str) :
  is_hex (c :: s) = true <-> is_hexdigit c = true /\ is_hex s = true.
Proof. unfold is_hex. simpl. apply andb_true_iff. Qed.

Lemma is_hex_app (a b : str) :
  is_hex (a ++ b) = true <-> is_hex a = true /\ is_hex b = true.
Proof. unfold is_hex. rewrite forallb_app. apply andb_true_iff. Qed.

Lemma is_lower_is_hex (s : str) : is_lower_hex s = true -> is_hex s = true.
Proof.
  unfold is_lower_hex, is_hex. rewrite !forallb_forall.
  intros H c Hc. apply is_lowerdigit_hexdigit. now apply H.
Qed.

Lemma nibbles_ok (s : str) : is_hex s = true -> nibs_ok (nibbles s).
Proof.
  induction s as [|c s IH]; intros H; [constructor|].
  apply is_hex_cons in H as [Hc Hs]. constructor; [|now apply IH].
  now apply is_hexdigit_nib.
Qed.

Lemma nibbles_hexchar (ds : list Z) :
  nibs_ok ds -> nibbles (map hexchar ds) = ds.
Proof.
  induction 1 as [|d ds Hd _ IH]; [reflexivity|].
  simpl. now rewrite nib_hexchar, IH.
Qed.

Lemma hexchar_nibbles (s : str) :
  is_lower_hex s = true -> map hexchar (nibbles s) = s.
Proof.
  induction s as [|c s IH]; [reflexivity|]. unfold is_lower_hex. simpl.
  intros H. apply andb_true_iff in H as [Hc Hs].
  now rewrite is_lowerdigit_hexchar, IH.
Qed.

Lemma map_hexchar_lower (ds : list Z) :
  nibs_ok ds -> is_lower_hex (map hexchar ds) = true.
Proof.
  induction 1 as [|d ds Hd _ IH]; [reflexivity|].
  unfold is_lower_hex. simpl. rewrite hexchar_lowerdigit by assumption.
  exact IH.
Qed.

(** ** [int(s, 16)] *)

Lemma int16_acc_fold (s : str) (acc : Z) :
  is_hex s = true ->
  int16_acc s acc = Ok (fold_left (fun a d => 16 * a + d) (nibbles s) acc).
Proof.
  revert acc. induction s as [|c s IH]; intros acc H; [reflexivity|].
  apply is_hex_cons in H as [Hc Hs]. simpl.
  destruct (is_hexdigit_nib c Hc) as [-> _]. now apply IH.
Qed.

Lemma int16_hex (s : str) :
  is_hex s = true -> s <> [] -> int16 s = Ok (value (nibbles s)).
Proof.
  intros H Hne. destruct s as [|c s]; [congruence|].
  unfold int16. now apply int16_acc_fold.
Qed.

Lemma int16_nil : int16 [] = Raise ValueError.
Proof. reflexivity. Qed.

Lemma value_snoc (ds : list Z) (d : Z) : value (ds ++ [d]) = 16 * value ds + d.
Proof. unfold value. now rewrite fold_left_app. Qed.

Lemma fold_value_bounds (ds : list Z) (acc : Z) :
  nibs_ok ds -> 0 <= acc ->
  0 <= fold_left (fun a d => 16 * a + d) ds acc
    < (acc + 1) * 16 ^ Z.of_nat (List.length ds).
Proof.
  intros H. revert acc. induction H as [|d ds Hd _ IH]; intros acc Hacc.
  - simpl. lia.
  - cbn [fold_left List.length]. rewrite Nat2Z.inj_succ, Z.pow_succ_r by lia.
    specialize (IH (16 * acc + d) ltac:(lia)).
    assert (0 < 16 ^ Z.of_nat (List.length ds)) by (apply Z.pow_pos_nonneg; lia).
    nia.
Qed.

Lemma value_bounds (ds : list Z) :
  nibs_ok ds -> 0 <= value ds < 16 ^ len ds.
Proof.
  intros H. pose proof (fold_value_bounds ds 0 H ltac:(lia)) as B.
  unfold value, len. lia.
Qed.

(** ** Exclusive-or on digits and on values *)

Lemma nibble_lxor_range (d e : Z) :
  0 <= d < 16 -> 0 <= e < 16 -> 0 <= Z.lxor d e < 16.
Proof.
  intros Hd He. split.
  - apply Z.lxor_nonneg. lia.
  - destruct (Z.eq_dec (Z.lxor d e) 0) as [->|Hnz]; [lia|].
    assert (0 < Z.lxor d e) by (pose proof (proj2 (Z.lxor_nonneg d e)); lia).
    apply (Z.log2_lt_pow2 _ 4); [assumption|].
    pose proof (Z.log2_lxor d e ltac:(lia) ltac:(lia)) as L.
    assert (Z.log2 d < 4).
    { destruct (Z.eq_dec d 0) as [->|]; [reflexivity|].
      apply Z.log2_lt_pow2; lia. }
    assert (Z.log2 e < 4).
    { destruct (Z.eq_dec e 0) as [->|]; [reflexivity|].
      apply Z.log2_lt_pow2; lia. }
    lia.
Qed.

Lemma lxor_div16 (u v : Z) : Z.lxor u v / 16 = Z.lxor (u / 16) (v / 16).
Proof.
  change 16 with (2 ^ 4). rewrite <- !Z.shiftr_div_pow2 by lia.
  apply Z.shiftr_lxor.
Qed.

Lemma lxor_mod16 (u v : Z) :
  Z.lxor u v mod 16 = Z.lxor (u mod 16) (v mod 16).
Proof.
  change 16 with (2 ^ 4). apply Z.bits_inj'. intros n Hn.
  rewrite Z.lxor_spec.
  destruct (Z.lt_ge_cases n 4).
  - rewrite !Z.mod_pow2_bits_low by lia. apply Z.lxor_spec.
  - rewrite !Z.mod_pow2_bits_high by lia. reflexivity.
Qed.

Lemma lxor_16 (x y d e : Z) :
  0 <= d < 16 -> 0 <= e < 16 ->
  Z.lxor (16 * x + d) (16 * y + e) = 16 * Z.lxor x y + Z.lxor d e.
Proof.
  intros Hd He.
  pose proof (nibble_lxor_range d e Hd He) as R.
  rewrite (Z.div_mod (Z.lxor (16 * x + d) (16 * y + e)) 16) by lia.
  rewrite lxor_div16, lxor_mod16.
  replace ((16 * x + d) / 16) with x by (apply Z.div_unique with d; lia).
  replace ((16 * y + e) / 16) with y by (apply Z.div_unique with e; lia).
  replace ((16 * x + d) mod 16) with d by (apply Z.mod_unique with x; lia).
  replace ((16 * y + e) mod 16) with e by (apply Z.mod_unique with y; lia).
  reflexivity.
Qed.

Lemma zipxor_length (a b : list Z) :
  List.length a = List.length b -> List.length (zipxor a b) = List.length a.
Proof.
  intros H. unfold zipxor. rewrite length_map, length_combine. lia.
Qed.

Lemma zipxor_ok (a b : list Z) : nibs_ok a -> nibs_ok b -> nibs_ok (zipxor a b).
Proof.
  intros Ha. revert b. induction Ha as [|d a Hd _ IH]; intros b Hb.
  - constructor.
  - destruct Hb as [|e b He Hb]; [constructor|].
    unfold zipxor. simpl. constructor.
    + now apply nibble_lxor_range.
    + now apply IH.
Qed.

Lemma zipxor_cons (d e : Z) (a b : list Z) :
  zipxor (d :: a) (e :: b) = Z.lxor d e :: zipxor a b.
Proof. reflexivity. Qed.

Lemma zipxor_app (a a' b b' : list Z) :
  List.length a = List.length b ->
  zipxor (a ++ a') (b ++ b') = zipxor a b ++ zipxor a' b'.
Proof.
  revert b. induction a as [|d a IH]; intros [|e b] H; try discriminate.
  - reflexivity.
  - simpl. rewrite !zipxor_cons, IH; [reflexivity|]. simpl in H. lia.
Qed.

Lemma zipxor_involutive (a b : list Z) :
  List.length a = List.length b -> zipxor (zipxor a b) b = a.
Proof.
  revert b. induction a as [|d a IH]; intros [|e b] H; try discriminate.
  - reflexivity.
  - rewrite !zipxor_cons, IH by (simpl in H; lia).
    now rewrite Z.lxor_assoc, Z.lxor_nilpotent, Z.lxor_0_r.
Qed.

Lemma fold_lxor (a b : list Z) (x y : Z) :
  List.length a = List.length b -> nibs_ok a -> nibs_ok b ->
  Z.lxor (fold_left (fun acc d => 16 * acc + d) a x)
         (fold_left (fun acc d => 16 * acc + d) b y)
  = fold_left (fun acc d => 16 * acc + d) (zipxor a b) (Z.lxor x y).
Proof.
  intros L Ha. revert b x y L.
  induction Ha as [|d a Hd _ IH]; intros [|e b] x y L Hb; try discriminate.
  - reflexivity.
  - inversion Hb as [|? ? He Hb']; subst.
    rewrite zipxor_cons. cbn [fold_left].
    rewrite IH by (simpl in L; auto; lia).
    now rewrite lxor_16.
Qed.

Lemma value_lxor (a b : list Z) :
  List.length a = List.length b -> nibs_ok a -> nibs_ok b ->
  Z.lxor (value a) (value b) = value (zipxor a b).
Proof. intros. unfold value. now rewrite fold_lxor. Qed.

(** ** [format(v, "x")] and [zfill] *)

Lemma fold_value_lower (ds : list Z) (acc : Z) :
  nibs_ok ds -> 0 <= acc ->
  acc <= fold_left (fun a d => 16 * a + d) ds acc.
Proof.
  intros H. revert acc. induction H as [|d ds Hd _ IH]; intros acc Hacc.
  - simpl. lia.
  - cbn [fold_left]. specialize (IH (16 * acc + d) ltac:(lia)). lia.
Qed.

Lemma strip0_snoc (ds : list Z) (d : Z) :
  nibs_ok ds -> 0 <= d < 16 ->
  strip0 (ds ++ [d]) = if value (ds ++ [d]) =? 0 then [] else strip0 ds ++ [d].
Proof.
  intros H Hd. rewrite value_snoc.
  induction H as [|e ds He Hds IH].
  - change (value []) with 0. cbn [app strip0]. rewrite Z.mul_0_r, Z.add_0_l.
    destruct (d =? 0); reflexivity.
  - cbn [app strip0]. destruct (e =? 0) eqn:E.
    + apply Z.eqb_eq in E. subst e. rewrite IH.
      unfold value. cbn [fold_left]. reflexivity.
    + apply Z.eqb_neq in E.
      assert (0 < value (e :: ds)).
      { unfold value. cbn [fold_left].
        pose proof (fold_value_lower ds (16 * 0 + e) Hds ltac:(lia)). lia. }
      destruct (16 * value (e :: ds) + d =? 0) eqn:F; [|reflexivity].
      apply Z.eqb_eq in F. lia.
Qed.

Lemma strip0_split (ds : list Z) :
  exists k, ds = repeat 0 k ++ strip0 ds.
Proof.
  induction ds as [|d ds [k IH]].
  - now exists 0%nat.
  - simpl. destruct (d =? 0) eqn:E.
    + apply Z.eqb_eq in E. subst d. exists (S k). simpl. now rewrite <- IH.
    + now exists 0%nat.
Qed.

Lemma hexdigits_value (ds : list Z) :
  nibs_ok ds ->
  forall (fuel : nat) (acc : str),
    value ds < 2 ^ Z.of_nat fuel ->
    hexdigits fuel (value ds) acc = map hexchar (strip0 ds) ++ acc.
Proof.
  induction ds as [|d ds IH] using rev_ind; intros Hok fuel acc Hlt.
  - destruct fuel; reflexivity.
  - apply Forall_app in Hok as [Hds Hd]. inversion Hd as [|? ? Hd' _]; subst.
    rewrite strip0_snoc by assumption.
    pose proof (value_bounds ds Hds) as B.
    rewrite value_snoc in *.
    destruct fuel as [|fuel].
    + change (2 ^ Z.of_nat 0) with 1 in Hlt.
      replace (16 * value ds + d) with 0 by lia. reflexivity.
    + cbn [hexdigits]. destruct (16 * value ds + d =? 0) eqn:E; [reflexivity|].
      replace ((16 * value ds + d) / 16) with (value ds)
        by (apply Z.div_unique with d; lia).
      replace ((16 * value ds + d) mod 16) with d
        by (apply Z.mod_unique with (value ds); lia).
      rewrite IH; [now rewrite map_app, <- app_assoc|assumption|].
      rewrite Nat2Z.inj_succ, Z.pow_succ_r in Hlt by lia. lia.
Qed.

Lemma bits_enough (z : Z) : 0 < z -> z < 2 ^ Z.of_nat (bits z).
Proof.
  intros H. unfold bits. rewrite Nat2Z.inj_succ, Z2Nat.id by apply Z.log2_nonneg.
  now apply Z.log2_spec.
Qed.

Lemma format_x_value (ds : list Z) :
  nibs_ok ds ->
  format_x (value ds) =
    if value ds =? 0 then hs "0" else map hexchar (strip0 ds).
Proof.
  intros H. pose proof (value_bounds ds H) as B. unfold format_x.
  destruct (value ds =? 0) eqn:E; [reflexivity|]. apply Z.eqb_neq in E.
  destruct (value ds <? 0) eqn:F; [apply Z.ltb_lt in F; lia|].
  rewrite hexdigits_value; [apply app_nil_r|assumption|].
  apply bits_enough. lia.
Qed.

Lemma value_zero_strip0 (ds : list Z) :
  nibs_ok ds -> value ds = 0 -> ds = repeat 0 (List.length ds).
Proof.
  induction 1 as [|d ds Hd Hds IH]; intros V; [reflexivity|].
  unfold value in V. cbn [fold_left] in V.
  pose proof (fold_value_lower ds (16 * 0 + d) Hds ltac:(lia)).
  assert (d = 0) by lia. subst d. simpl. f_equal. apply IH. exact V.
Qed.

Lemma strip0_ok (ds : list Z) : nibs_ok ds -> nibs_ok (strip0 ds).
Proof.
  induction 1 as [|d ds Hd Hds IH]; [constructor|].
  simpl. destruct (d =? 0); [assumption|]. now constructor.
Qed.

Lemma map_hexchar_repeat0 (k : nat) :
  map hexchar (repeat 0 k) = repeat "0"%char k.
Proof. induction k; simpl; [reflexivity|]. now rewrite IHk. Qed.

(** [format] followed by [zfill] to the number of digits gives the digits
    back, in lower case. *)
Lemma zfill_format_value (ds : list Z) :
  nibs_ok ds -> ds <> [] ->
  zfill (format_x (value ds)) (len ds) = map hexchar ds.
Proof.
  intros H Hne. rewrite format_x_value by assumption.
  destruct (value ds =? 0) eqn:E.
  - apply Z.eqb_eq in E. pose proof (value_zero_strip0 ds H E) as R.
    unfold len. rewrite R at 2. rewrite map_hexchar_repeat0.
    destruct (List.length ds) as [|n] eqn:L; [destruct ds; [congruence|discriminate]|].
    unfold zfill, len. cbn [hs list_ascii_of_string List.length].
    change (is_sign "0") with false. cbv iota.
    replace (Z.to_nat (Z.of_nat (S n) - Z.of_nat 1)) with n by lia.
    symmetry. apply (repeat_cons n "0"%char).
  - apply Z.eqb_neq in E.
    destruct (strip0_split ds) as [k Hk].
    pose proof (strip0_ok ds H) as Hs.
    destruct (strip0 ds) as [|d r] eqn:S0.
    + exfalso. apply E. rewrite Hk, app_nil_r. clear.
      induction k; [reflexivity|]. exact IHk.
    + pose proof (Forall_inv Hs) as Hd. cbv beta in Hd.
      unfold zfill. cbn [map]. rewrite hexchar_not_sign by assumption.
      assert (List.length ds = (k + List.length (d :: r))%nat) as L.
      { rewrite Hk at 1. now rewrite length_app, repeat_length. }
      unfold len. change (hexchar d :: map hexchar r) with (map hexchar (d :: r)).
      rewrite length_map.
      replace (Z.to_nat (Z.of_nat (List.length ds) - Z.of_nat (List.length (d :: r))))
        with k by lia.
      rewrite Hk. now rewrite map_app, map_hexchar_repeat0.
Qed.

(** ** [xor] *)

Lemma xor_digits_length (a b : str) :
  List.length a = List.length b -> List.length (xor_digits a b) = List.length a.
Proof.
  intros H. unfold xor_digits, nibbles.
  rewrite length_map, zipxor_length; rewrite !length_map; auto.
Qed.

Lemma xor_digits_lower (a b : str) :
  is_hex a = true -> is_hex b = true -> is_lower_hex (xor_digits a b) = true.
Proof.
  intros Ha Hb. apply map_hexchar_lower.
  apply zipxor_ok; now apply nibbles_ok.
Qed.

Lemma nibbles_xor_digits (a b : str) :
  is_hex a = true -> is_hex b = true ->
  nibbles (xor_digits a b) = zipxor (nibbles a) (nibbles b).
Proof.
  intros Ha Hb. apply nibbles_hexchar. apply zipxor_ok; now apply nibbles_ok.
Qed.

(** On hex strings of one length [n >= 1], [xor] with [length = n] is the
    digit-by-digit exclusive-or. *)
Lemma xor_hex (a b : str) :
  is_hex a = true -> is_hex b = true ->
  List.length a = List.length b -> a <> [] ->
  xor a b (len a) = Ok (xor_digits a b).
Proof.
  intros Ha Hb L Hne.
  assert (b <> []) by (destruct b; [destruct a; [congruence|discriminate]|congruence]).
  unfold xor. rewrite !int16_hex by assumption. cbn [bind].
  pose proof (nibbles_ok a Ha) as Na. pose proof (nibbles_ok b Hb) as Nb.
  assert (List.length (nibbles a) = List.length (nibbles b)) as Ln
    by (unfold nibbles; now rewrite !length_map).
  rewrite value_lxor by assumption.
  replace (len a) with (len (zipxor (nibbles a) (nibbles b))).
  - rewrite zfill_format_value; [reflexivity|now apply zipxor_ok|].
    intros Z0. apply (f_equal (@List.length Z)) in Z0.
    rewrite zipxor_length in Z0 by assumption.
    unfold nibbles in Z0. rewrite length_map in Z0.
    destruct a; [congruence|discriminate].
  - unfold len. rewrite zipxor_length by assumption.
    unfold nibbles. now rewrite length_map.
Qed.

Lemma xor_succeeds (a b : str) (n : Z) :
  is_hex a = true -> is_hex b = true -> a <> [] -> b <> [] ->
  succeeds (xor a b n).
Proof.
  intros Ha Hb Na Nb. unfold xor, succeeds.
  rewrite !int16_hex by assumption. cbn [bind]. eauto.
Qed.

(** ** Slices *)

Lemma len_nonneg {A : Type} (l : list A) : 0 <= len l.
Proof. unfold len. lia. Qed.

Lemma len_app {A : Type} (a b : list A) : len (a ++ b) = len a + len b.
Proof. unfold len. rewrite length_app. lia. Qed.

(** With bounds [0 <= a <= b] a slice is a [firstn] of a [skipn], whatever
    the length of the list. *)
Lemma slice_nonneg {A : Type} (s : list A) (a b : Z) :
  0 <= a <= b ->
  slice s a b = firstn (Z.to_nat (b - a)) (skipn (Z.to_nat a) s).
Proof.
  intros H. unfold slice, clamp, len.
  destruct (a <? 0) eqn:Ea; [apply Z.ltb_lt in Ea; lia|].
  destruct (b <? 0) eqn:Eb; [apply Z.ltb_lt in Eb; lia|].
  set (l := List.length s).
  destruct (Z.le_gt_cases b (Z.of_nat l)) as [Hb|Hb].
  - now rewrite !Z.min_l by lia.
  - rewrite (Z.min_r b) by lia.
    destruct (Z.le_gt_cases a (Z.of_nat l)) as [Ha|Ha].
    + rewrite Z.min_l by lia.
      rewrite !firstn_all2; [reflexivity| |]; rewrite length_skipn; subst l; lia.
    + rewrite Z.min_r by lia.
      rewrite (skipn_all2 (n := Z.to_nat a)) by (subst l; lia).
      rewrite firstn_nil. replace (Z.to_nat (Z.of_nat l - Z.of_nat l)) with 0%nat by lia.
      reflexivity.
Qed.

Lemma slice_from_nonneg {A : Type} (s : list A) (a : Z) :
  0 <= a -> slice_from s a = skipn (Z.to_nat a) s.
Proof.
  intros H. unfold slice_from, clamp, len.
  destruct (a <? 0) eqn:Ea; [apply Z.ltb_lt in Ea; lia|].
  destruct (Z.le_gt_cases a (Z.of_nat (List.length s))).
  - now rewrite Z.min_l by lia.
  - rewrite Z.min_r by lia. rewrite !skipn_all2; [reflexivity| |]; lia.
Qed.

Lemma slice_to_nonneg {A : Type} (s : list A) (b : Z) :
  0 <= b -> slice_to s b = firstn (Z.to_nat b) s.
Proof.
  intros H. unfold slice_to, clamp, len.
  destruct (b <? 0) eqn:Eb; [apply Z.ltb_lt in Eb; lia|].
  destruct (Z.le_gt_cases b (Z.of_nat (List.length s))).
  - now rewrite Z.min_l by lia.
  - rewrite Z.min_r by lia. rewrite !firstn_all2; [reflexivity| |]; lia.
Qed.

Lemma nibbles_length (s : str) : List.length (nibbles s) = List.length s.
Proof. apply length_map. Qed.

Lemma is_hex_firstn (n : nat) (s : str) :
  is_hex s = true -> is_hex (firstn n s) = true.
Proof.
  intros H. rewrite <- (firstn_skipn n s) in H. now apply is_hex_app in H.
Qed.

Lemma is_hex_skipn (n : nat) (s : str) :
  is_hex s = true -> is_hex (skipn n s) = true.
Proof.
  intros H. rewrite <- (firstn_skipn n s) in H. now apply is_hex_app in H.
Qed.

Lemma is_hex_slice (s : str) (a b : Z) :
  is_hex s = true -> is_hex (slice s a b) = true.
Proof. intros H. unfold slice. now apply is_hex_firstn, is_hex_skipn. Qed.

(** ** [rot] *)

Lemma rot_2_8 (s : str) : rot s 2 8 = Ok (skipn 2 s ++ firstn 2 s).
Proof.
  unfold rot. change (8 =? 0) with false. change (2 mod 8) with 2. cbv iota zeta.
  now rewrite slice_from_nonneg, slice_to_nonneg by lia.
Qed.

(** ** Table lookup and the substitution loop *)

Lemma table_ok_lookup (t : list cell) (b : Z) :
  table_ok t = true -> 0 <= b < 256 ->
  getitem t b = Ok (Some (table_str t b)) /\
  is_hex (table_str t b) = true /\ List.length (table_str t b) = 2%nat.
Proof.
  intros Ht Hb. unfold table_ok in Ht. apply andb_true_iff in Ht as [L F].
  apply Nat.eqb_eq in L. rewrite forallb_forall in F.
  unfold getitem, table_str, len. rewrite L.
  destruct (b <? 0) eqn:E; [apply Z.ltb_lt in E; lia|].
  rewrite E. cbn [orb].
  destruct (Z.of_nat 256 <=? b) eqn:E2; [apply Z.leb_le in E2; lia|].
  destruct (nth_error t (Z.to_nat b)) as [c|] eqn:N.
  - specialize (F c (nth_error_In _ _ N)). destruct c as [s|]; [|discriminate].
    cbn [cell_ok] in F. apply andb_true_iff in F as [F1 F2].
    apply Nat.eqb_eq in F2. auto.
  - apply nth_error_None in N. lia.
Qed.

Lemma slice_pair_length (bytes : str) (i : Z) :
  0 <= i -> (List.length (slice bytes (i * 2) (i * 2 + 2)) <= 2)%nat.
Proof.
  intros H. rewrite slice_nonneg by lia. rewrite length_firstn. lia.
Qed.

Lemma slice_pair_nonempty (bytes : str) (i : Z) :
  0 <= i -> i * 2 < len bytes -> slice bytes (i * 2) (i * 2 + 2) <> [].
Proof.
  intros H L E. apply (f_equal (@List.length ascii)) in E.
  rewrite slice_nonneg in E by lia.
  rewrite length_firstn, length_skipn in E. unfold len in L.
  change (List.length (@nil ascii)) with 0%nat in E. lia.
Qed.

Lemma slice_pair_empty (bytes : str) (i : Z) :
  0 <= i -> len bytes <= i * 2 -> slice bytes (i * 2) (i * 2 + 2) = [].
Proof.
  intros H L. rewrite slice_nonneg by lia.
  rewrite skipn_all2 by (unfold len in L; lia). apply firstn_nil.
Qed.

Lemma byte_at_range (bytes : str) (i : Z) :
  is_hex bytes = true -> 0 <= i -> 0 <= byte_at bytes i < 256.
Proof.
  intros H Hi. unfold byte_at.
  pose proof (value_bounds _ (nibbles_ok _ (is_hex_slice bytes (i * 2) (i * 2 + 2) H))) as B.
  pose proof (slice_pair_length bytes i Hi) as L.
  unfold len in B. rewrite nibbles_length in B.
  assert (16 ^ Z.of_nat (List.length (slice bytes (i * 2) (i * 2 + 2))) <= 16 ^ 2)
    by (apply Z.pow_le_mono_r; lia).
  change (16 ^ 2) with 256 in *. lia.
Qed.

Lemma subst_loop_ok (t : list cell) (bytes : str) :
  table_ok t = true -> is_hex bytes = true ->
  forall (idx : list Z) (res : str),
    Forall (fun i => 0 <= i /\ i * 2 < len bytes) idx ->
    subst_loop t bytes idx res
    = Ok (res ++ flat_map (fun i => table_str t (byte_at bytes i)) idx).
Proof.
  intros Ht Hb idx. induction idx as [|i idx IH]; intros res F.
  - simpl. now rewrite app_nil_r.
  - inversion F as [|? ? [Hi Hl] F']; subst. cbn [subst_loop flat_map].
    rewrite int16_hex
      by (auto using is_hex_slice, slice_pair_nonempty).
    cbn [bind]. fold (byte_at bytes i).
    destruct (table_ok_lookup t (byte_at bytes i) Ht (byte_at_range bytes i Hb Hi))
      as (-> & _ & _).
    cbn [bind]. rewrite IH by assumption. now rewrite app_assoc.
Qed.

Lemma subst_loop_short (t : list cell) (bytes : str) :
  table_ok t = true -> is_hex bytes = true ->
  forall (idx : list Z) (res : str),
    Forall (fun i => 0 <= i) idx ->
    Exists (fun i => len bytes <= i * 2) idx ->
    subst_loop t bytes idx res = Raise ValueError.
Proof.
  intros Ht Hb idx. induction idx as [|i idx IH]; intros res F E.
  - inversion E.
  - inversion F as [|? ? Hi F']; subst. cbn [subst_loop].
    destruct (Z.le_gt_cases (len bytes) (i * 2)) as [Hs|Hs].
    + now rewrite slice_pair_empty.
    + rewrite int16_hex
        by (auto using is_hex_slice, slice_pair_nonempty).
      cbn [bind]. fold (byte_at bytes i).
      destruct (table_ok_lookup t (byte_at bytes i) Ht (byte_at_range bytes i Hb Hi))
        as (-> & _ & _).
      cbn [bind]. apply IH; [assumption|].
      inversion E as [? ? Hx|? ? Hx]; subst; [lia|assumption].
Qed.

(** ** The byte view *)

Lemma pair_ind {A : Type} (P : list A -> Prop) :
  P [] -> (forall x, P [x]) -> (forall x y l, P l -> P (x :: y :: l)) ->
  forall l, P l.
Proof.
  intros H0 H1 H2 l.
  enough (P l /\ forall x, P (x :: l)) by tauto.
  induction l as [|y l [IH1 IH2]]; split; auto.
Qed.

Lemma bytes_of_hex_length (s : str) :
  List.length (bytes_of_hex s) = Nat.div2 (List.length s).
Proof. induction s using pair_ind; simpl; auto. Qed.

Lemma bytes_of_hex_app (a b : str) :
  Nat.even (List.length a) = true ->
  bytes_of_hex (a ++ b) = bytes_of_hex a ++ bytes_of_hex b.
Proof.
  induction a as [|x|x y a IH] using pair_ind; intros E.
  - reflexivity.
  - discriminate.
  - cbn [app bytes_of_hex]. now rewrite IH.
Qed.

Lemma bytes_of_hex_firstn (n : nat) (s : str) :
  bytes_of_hex (firstn (2 * n) s) = firstn n (bytes_of_hex s).
Proof.
  revert n. induction s as [|x|x y s IH] using pair_ind; intros n.
  - cbn [bytes_of_hex]. now rewrite !firstn_nil.
  - destruct n; [reflexivity|]. replace (2 * S n)%nat with (S (S (2 * n))) by lia.
    reflexivity.
  - destruct n; [reflexivity|]. replace (2 * S n)%nat with (S (S (2 * n))) by lia.
    cbn [firstn bytes_of_hex]. now rewrite IH.
Qed.

Lemma bytes_of_hex_skipn (n : nat) (s : str) :
  bytes_of_hex (skipn (2 * n) s) = skipn n (bytes_of_hex s).
Proof.
  revert n. induction s as [|x|x y s IH] using pair_ind; intros n.
  - cbn [bytes_of_hex]. now rewrite !skipn_nil.
  - destruct n; [reflexivity|]. replace (2 * S n)%nat with (S (S (2 * n))) by lia.
    reflexivity.
  - destruct n; [reflexivity|]. replace (2 * S n)%nat with (S (S (2 * n))) by lia.
    cbn [skipn bytes_of_hex]. now rewrite IH.
Qed.

Lemma bytes_of_hex_xor (a b : str) :
  is_hex a = true -> is_hex b = true -> List.length a = List.length b ->
  bytes_of_hex (xor_digits a b) = zipxor (bytes_of_hex a) (bytes_of_hex b).
Proof.
  revert b. induction a as [|x|x y a IH] using pair_ind; intros b Ha Hb L.
  - reflexivity.
  - destruct b as [|x' [|? ?]]; try discriminate. reflexivity.
  - destruct b as [|x' [|y' b]]; try discriminate.
    apply is_hex_cons in Ha as [Hx Ha]. apply is_hex_cons in Ha as [Hy Ha].
    apply is_hex_cons in Hb as [Hx' Hb]. apply is_hex_cons in Hb as [Hy' Hb].
    destruct (is_hexdigit_nib x Hx) as [_ Rx].
    destruct (is_hexdigit_nib y Hy) as [_ Ry].
    destruct (is_hexdigit_nib x' Hx') as [_ Rx'].
    destruct (is_hexdigit_nib y' Hy') as [_ Ry'].
    change (xor_digits (x :: y :: a) (x' :: y' :: b))
      with (hexchar (Z.lxor (nib x) (nib x')) :: hexchar (Z.lxor (nib y) (nib y'))
              :: xor_digits a b).
    cbn [bytes_of_hex]. rewrite zipxor_cons.
    rewrite IH by (auto; simpl in L; lia).
    rewrite !nib_hexchar by now apply nibble_lxor_range.
    now rewrite lxor_16.
Qed.

Lemma bytes_of_hex_range (s : str) :
  is_hex s = true -> Forall is_byte (bytes_of_hex s).
Proof.
  induction s as [|x|x y s IH] using pair_ind; intros H; try constructor.
  - apply is_hex_cons in H as [Hx H]. apply is_hex_cons in H as [Hy H].
    destruct (is_hexdigit_nib x Hx) as [_ Rx].
    destruct (is_hexdigit_nib y Hy) as [_ Ry].
    unfold is_byte. lia.
  - apply IH. apply is_hex_cons in H as [_ H]. now apply is_hex_cons in H as [_ H].
Qed.

Lemma hex_of_bytes_of_hex (s : str) :
  is_lower_hex s = true -> Nat.even (List.length s) = true ->
  hex_of_bytes (bytes_of_hex s) = s.
Proof.
  induction s as [|x|x y s IH] using pair_ind; intros H E.
  - reflexivity.
  - discriminate.
  - unfold is_lower_hex in H. cbn [forallb] in H.
    apply andb_true_iff in H as [Hx H]. apply andb_true_iff in H as [Hy H].
    destruct (is_hexdigit_nib x (is_lowerdigit_hexdigit x Hx)) as [_ Rx].
    destruct (is_hexdigit_nib y (is_lowerdigit_hexdigit y Hy)) as [_ Ry].
    cbn [bytes_of_hex hex_of_bytes flat_map]. fold (hex_of_bytes (bytes_of_hex s)).
    rewrite IH by assumption. unfold hex2.
    replace ((16 * nib x + nib y) / 16) with (nib x)
      by (apply Z.div_unique with (nib y); lia).
    replace ((16 * nib x + nib y) mod 16) with (nib y)
      by (apply Z.mod_unique with (nib x); lia).
    now rewrite !is_lowerdigit_hexchar.
Qed.

Lemma bytes_of_hex_of_bytes (bs : list Z) :
  Forall is_byte bs -> bytes_of_hex (hex_of_bytes bs) = bs.
Proof.
  induction 1 as [|b bs Hb _ IH]; [reflexivity|].
  cbn [hex_of_bytes flat_map hex2 app bytes_of_hex].
  fold (hex_of_bytes bs). rewrite IH. unfold is_byte in Hb.
  assert (0 <= b / 16 < 16)
    by (split; [apply Z.div_pos; lia|apply Z.div_lt_upper_bound; lia]).
  pose proof (Z.mod_pos_bound b 16 ltac:(lia)).
  rewrite !nib_hexchar by assumption.
  f_equal. symmetry. apply Z.div_mod. lia.
Qed.

(** ** One round of the key schedule *)

Lemma xor_hex8 (a b : str) :
  is_hex a = true -> is_hex b = true ->
  List.length a = 8%nat -> List.length b = 8%nat ->
  xor a b 8 = Ok (xor_digits a b).
Proof.
  intros Ha Hb La Lb. replace 8 with (len a) by (unfold len; lia).
  apply xor_hex; auto; [lia|]. destruct a; [discriminate|congruence].
Qed.

Lemma word_length (prev : str) (k : nat) :
  (k + 8 <= List.length prev)%nat ->
  List.length (firstn 8 (skipn k prev)) = 8%nat.
Proof. intros H. rewrite length_firstn, length_skipn. lia. Qed.

Lemma sub_str_ok (t : list cell) (r : str) (idx : list Z) :
  table_ok t = true -> is_hex r = true -> Forall (fun i => 0 <= i) idx ->
  is_hex (flat_map (fun i => table_str t (byte_at r i)) idx) = true /\
  List.length (flat_map (fun i => table_str t (byte_at r i)) idx)
    = (2 * List.length idx)%nat.
Proof.
  intros Ht Hr. induction 1 as [|i idx Hi _ [IH1 IH2]]; [split; reflexivity|].
  destruct (table_ok_lookup t (byte_at r i) Ht (byte_at_range r i Hr Hi))
    as (_ & H1 & H2).
  cbn [flat_map]. split.
  - apply is_hex_app. auto.
  - rewrite length_app, H2, IH2. simpl. lia.
Qed.

Lemma words_hex (prev : str) :
  is_hex prev = true ->
  is_hex (firstn 8 prev) = true /\ is_hex (firstn 8 (skipn 8 prev)) = true /\
  is_hex (firstn 8 (skipn 16 prev)) = true /\
  is_hex (firstn 8 (skipn 24 prev)) = true.
Proof. intros H. auto 6 using is_hex_firstn, is_hex_skipn. Qed.

Lemma words_length (prev : str) :
  (32 <= List.length prev)%nat ->
  List.length (firstn 8 prev) = 8%nat /\
  List.length (firstn 8 (skipn 8 prev)) = 8%nat /\
  List.length (firstn 8 (skipn 16 prev)) = 8%nat /\
  List.length (firstn 8 (skipn 24 prev)) = 8%nat.
Proof.
  intros H. repeat split; try (apply word_length; lia).
  rewrite length_firstn. lia.
Qed.

Lemma rot_word_ok (prev : str) :
  is_hex prev = true -> (32 <= List.length prev)%nat ->
  is_hex (rot_word prev) = true /\ List.length (rot_word prev) = 8%nat.
Proof.
  intros Hp Lp.
  destruct (words_hex prev Hp) as (_ & _ & _ & H3).
  destruct (words_length prev Lp) as (_ & _ & _ & L3).
  unfold rot_word. split.
  - apply is_hex_app. auto using is_hex_firstn, is_hex_skipn.
  - rewrite length_app, length_firstn, length_skipn. lia.
Qed.

Lemma sub_word_ok (t : list cell) (prev : str) :
  table_ok t = true -> is_hex prev = true -> (32 <= List.length prev)%nat ->
  is_hex (sub_word t prev) = true /\ List.length (sub_word t prev) = 8%nat.
Proof.
  intros Ht Hp Lp. destruct (rot_word_ok prev Hp Lp) as [Hr _].
  apply (sub_str_ok t (rot_word prev) [0; 1; 2; 3] Ht Hr).
  repeat constructor; lia.
Qed.

Lemma next_key_unfold (t : list cell) (rc prev : str) :
  next_key t rc prev =
  let w0 := firstn 8 prev in
  let w1 := firstn 8 (skipn 8 prev) in
  let w2 := firstn 8 (skipn 16 prev) in
  let w3 := firstn 8 (skipn 24 prev) in
  let t := xor_digits (sub_word t prev) rc in
  let Rw0 := xor_digits w0 t in
  let Rw1 := xor_digits w1 Rw0 in
  let Rw2 := xor_digits w2 Rw1 in
  let Rw3 := xor_digits w3 Rw2 in
  Rw0 ++ Rw1 ++ Rw2 ++ Rw3.
Proof. reflexivity. Qed.

Lemma next_key_lower (t : list cell) (rc prev : str) :
  table_ok t = true -> is_hex rc = true ->
  is_hex prev = true -> (32 <= List.length prev)%nat ->
  is_lower_hex (next_key t rc prev) = true.
Proof.
  intros Ht Hrc Hp Lp.
  destruct (words_hex prev Hp) as (H0 & H1 & H2 & H3).
  destruct (sub_word_ok t prev Ht Hp Lp) as [Hs _].
  rewrite next_key_unfold. cbv zeta.
  unfold is_lower_hex. rewrite !forallb_app.
  repeat (apply andb_true_iff; split);
    auto 10 using xor_digits_lower, is_lower_is_hex.
Qed.

Lemma next_key_length (t : list cell) (rc prev : str) :
  table_ok t = true -> List.length rc = 8%nat ->
  is_hex prev = true -> (32 <= List.length prev)%nat ->
  List.length (next_key t rc prev) = 32%nat.
Proof.
  intros Ht Lrc Hp Lp.
  destruct (words_length prev Lp) as (L0 & L1 & L2 & L3).
  destruct (sub_word_ok t prev Ht Hp Lp) as [_ Ls].
  rewrite next_key_unfold. cbv zeta.
  rewrite !length_app.
  repeat (rewrite xor_digits_length; try lia).
Qed.

(** ** [expandKey] *)

Lemma expandKey_step_ok (self : AES) (Rk : list cell) (i : Z)
      (rcs : list str) (rc prev : str) :
  table_ok (sbox self) = true ->
  Rcon self = Some rcs -> getitem rcs i = Ok rc ->
  is_hex rc = true -> List.length rc = 8%nat ->
  getitem Rk (i - 1) = Ok (Some prev) ->
  is_hex prev = true -> (32 <= List.length prev)%nat ->
  0 <= i < len Rk ->
  expandKey_step self Rk i
  = Ok (update Rk (Z.to_nat i) (Some (next_key (sbox self) rc prev))).
Proof.
  intros Ht HR Hg Hrc Lrc Hp Hprev Lprev Hi.
  destruct (words_hex prev Hprev) as (H0 & H1 & H2 & H3).
  destruct (words_length prev Lprev) as (L0 & L1 & L2 & L3).
  destruct (rot_word_ok prev Hprev Lprev) as [Hr Lr].
  destruct (sub_word_ok (sbox self) prev Ht Hprev Lprev) as [Hs Ls].
  unfold expandKey_step, word_of. rewrite Hp. cbn [bind].
  rewrite !slice_nonneg by lia.
  change (Z.to_nat (8 - 0)) with 8%nat. change (Z.to_nat (16 - 8)) with 8%nat.
  change (Z.to_nat (24 - 16)) with 8%nat. change (Z.to_nat (32 - 24)) with 8%nat.
  change (Z.to_nat 0) with 0%nat. change (Z.to_nat 8) with 8%nat.
  change (Z.to_nat 16) with 16%nat. change (Z.to_nat 24) with 24%nat.
  change (skipn 0 prev) with prev.
  rewrite rot_2_8. cbn [bind]. unfold subByte.
  change (range 4) with [0; 1; 2; 3]. fold (rot_word prev).
  rewrite subst_loop_ok;
    [|assumption|assumption|unfold len; rewrite Lr; repeat constructor; lia].
  cbn [bind app]. fold (sub_word (sbox self) prev).
  rewrite HR, Hg. cbn [bind].
  rewrite next_key_unfold. cbv zeta.
  set (t := xor_digits (sub_word (sbox self) prev) rc).
  assert (is_hex t = true /\ List.length t = 8%nat) as [Ht' Lt'].
  { subst t. split; [now apply is_lower_is_hex, xor_digits_lower|].
    rewrite xor_digits_length; lia. }
  rewrite (xor_hex8 _ rc) by assumption. cbn [bind]. fold t.
  set (Rw0 := xor_digits (firstn 8 prev) t).
  assert (is_hex Rw0 = true /\ List.length Rw0 = 8%nat) as [HR0 LR0].
  { subst Rw0. split; [now apply is_lower_is_hex, xor_digits_lower|].
    rewrite xor_digits_length; lia. }
  rewrite (xor_hex8 _ t) by assumption. cbn [bind]. fold Rw0.
  set (Rw1 := xor_digits (firstn 8 (skipn 8 prev)) Rw0).
  assert (is_hex Rw1 = true /\ List.length Rw1 = 8%nat) as [HR1 LR1].
  { subst Rw1. split; [now apply is_lower_is_hex, xor_digits_lower|].
    rewrite xor_digits_length; lia. }
  rewrite (xor_hex8 _ Rw0) by assumption. cbn [bind]. fold Rw1.
  set (Rw2 := xor_digits (firstn 8 (skipn 16 prev)) Rw1).
  assert (is_hex Rw2 = true /\ List.length Rw2 = 8%nat) as [HR2 LR2].
  { subst Rw2. split; [now apply is_lower_is_hex, xor_digits_lower|].
    rewrite xor_digits_length; lia. }
  rewrite (xor_hex8 _ Rw1) by assumption. cbn [bind]. fold Rw2.
  rewrite (xor_hex8 _ Rw2) by assumption. cbn [bind].
  unfold setitem. destruct (i <? 0) eqn:E; [apply Z.ltb_lt in E; lia|].
  rewrite E.
  destruct (len Rk <=? i) eqn:E2; [apply Z.leb_le in E2; lia|].
  reflexivity.
Qed.

(** The byte-to-byte view of the substituted, rotated word. *)
Lemma table_pair (t : list cell) (b : Z) :
  table_ok t = true -> 0 <= b < 256 ->
  bytes_of_hex (table_str t b) = [table_byte t b].
Proof.
  intros Ht Hb. destruct (table_ok_lookup t b Ht Hb) as (_ & _ & L).
  unfold table_byte, table_str in *.
  destruct (nth_error t (Z.to_nat b)) as [[s|]|]; try discriminate.
  destruct s as [|h [|l [|? ?]]]; try discriminate.
  unfold value. cbn [bytes_of_hex nibbles map fold_left]. f_equal; lia.
Qed.

Lemma bytes_of_sub (t : list cell) (r : str) :
  table_ok t = true -> is_hex r = true -> List.length r = 8%nat ->
  bytes_of_hex (flat_map (fun i => table_str t (byte_at r i)) [0; 1; 2; 3])
  = map (table_byte t) (bytes_of_hex r).
Proof.
  intros Ht Hr Lr.
  assert (forall i, 0 <= i -> List.length (table_str t (byte_at r i)) = 2%nat) as L2.
  { intros i Hi. now destruct (table_ok_lookup t _ Ht (byte_at_range r i Hr Hi))
      as (_ & _ & L). }
  cbn [flat_map]. rewrite app_nil_r.
  rewrite !bytes_of_hex_app by (rewrite L2 by lia; reflexivity).
  rewrite !table_pair by (auto using byte_at_range; apply byte_at_range; auto; lia).
  do 9 (destruct r as [|? r]; try discriminate). clear.
  unfold byte_at. rewrite !slice_nonneg by lia.
  unfold value. cbn. repeat f_equal; lia.
Qed.

Lemma bytes_of_next_key (t : list cell) (i : Z) (rc prev : str) :
  table_ok t = true ->
  is_hex rc = true -> List.length rc = 8%nat ->
  bytes_of_hex rc = Spec.RoundConstant i ->
  is_hex prev = true -> List.length prev = 32%nat ->
  bytes_of_hex (next_key t rc prev)
  = Spec.NextRoundKey (table_byte t) i (bytes_of_hex prev).
Proof.
  intros Ht Hrc Lrc Brc Hp Lp.
  assert (32 <= List.length prev)%nat as Lp' by lia.
  destruct (words_hex prev Hp) as (H0 & H1 & H2 & H3).
  destruct (words_length prev Lp') as (L0 & L1 & L2 & L3).
  destruct (rot_word_ok prev Hp Lp') as [Hr Lr].
  destruct (sub_word_ok t prev Ht Hp Lp') as [Hs Ls].
  rewrite next_key_unfold. cbv zeta.
  set (tt := xor_digits (sub_word t prev) rc).
  assert (is_hex tt = true /\ List.length tt = 8%nat) as [Ht' Lt'].
  { subst tt. split; [now apply is_lower_is_hex, xor_digits_lower|].
    rewrite xor_digits_length; lia. }
  set (Rw0 := xor_digits (firstn 8 prev) tt).
  assert (is_hex Rw0 = true /\ List.length Rw0 = 8%nat) as [HR0 LR0].
  { subst Rw0. split; [now apply is_lower_is_hex, xor_digits_lower|].
    rewrite xor_digits_length; lia. }
  set (Rw1 := xor_digits (firstn 8 (skipn 8 prev)) Rw0).
  assert (is_hex Rw1 = true /\ List.length Rw1 = 8%nat) as [HR1 LR1].
  { subst Rw1. split; [now apply is_lower_is_hex, xor_digits_lower|].
    rewrite xor_digits_length; lia. }
  set (Rw2 := xor_digits (firstn 8 (skipn 16 prev)) Rw1).
  assert (is_hex Rw2 = true /\ List.length Rw2 = 8%nat) as [HR2 LR2].
  { subst Rw2. split; [now apply is_lower_is_hex, xor_digits_lower|].
    rewrite xor_digits_length; lia. }
  set (Rw3 := xor_digits (firstn 8 (skipn 24 prev)) Rw2).
  assert (List.length Rw3 = 8%nat) as LR3
    by (subst Rw3; rewrite xor_digits_length; lia).
  rewrite !bytes_of_hex_app by (rewrite ?LR0, ?LR1, ?LR2; reflexivity).
  subst Rw3. rewrite bytes_of_hex_xor by (auto; lia).
  subst Rw2. rewrite bytes_of_hex_xor by (auto; lia).
  subst Rw1. rewrite bytes_of_hex_xor by (auto; lia).
  subst Rw0. rewrite bytes_of_hex_xor by (auto; lia).
  subst tt. rewrite bytes_of_hex_xor by (auto; lia).
  unfold sub_word. rewrite bytes_of_sub by assumption.
  unfold rot_word.
  rewrite bytes_of_hex_app
    by (rewrite length_skipn, L3; reflexivity).
  rewrite ?(bytes_of_hex_firstn 4 : forall s, bytes_of_hex (firstn 8 s) = _),
    ?(bytes_of_hex_firstn 1 : forall s, bytes_of_hex (firstn 2 s) = _),
    ?(bytes_of_hex_skipn 1 : forall s, bytes_of_hex (skipn 2 s) = _),
    ?(bytes_of_hex_firstn 4 : forall s, bytes_of_hex (firstn 8 s) = _),
    ?(bytes_of_hex_skipn 4 : forall s, bytes_of_hex (skipn 8 s) = _),
    ?(bytes_of_hex_skipn 8 : forall s, bytes_of_hex (skipn 16 s) = _),
    ?(bytes_of_hex_skipn 12 : forall s, bytes_of_hex (skipn 24 s) = _).
  rewrite Brc.
  unfold Spec.NextRoundKey, Spec.word, Spec.XOR, Spec.SubstituteBytes,
    Spec.RotateWord.
  assert (List.length (firstn 4 (skipn 12 (bytes_of_hex prev))) = 4%nat) as L4.
  { rewrite length_firstn, length_skipn, bytes_of_hex_length, Lp. reflexivity. }
  cbv zeta.
  change (4 * 0)%nat with 0%nat.
  change (4 * 1)%nat with 4%nat. change (4 * 2)%nat with 8%nat.
  change (4 * 3)%nat with 12%nat.
  change (skipn 0 (bytes_of_hex prev)) with (bytes_of_hex prev).
  rewrite L4. change (1 mod 4)%nat with 1%nat.
  reflexivity.
Qed.

(** ** The whole schedule *)

Lemma rcon_at_ok (i : Z) :
  1 <= i <= 10 ->
  getitem Rcon_init i = Ok (rcon_at i) /\ is_hex (rcon_at i) = true /\
  List.length (rcon_at i) = 8%nat /\
  bytes_of_hex (rcon_at i) = Spec.RoundConstant i.
Proof.
  intros H.
  assert (In i [1; 2; 3; 4; 5; 6; 7; 8; 9; 10]) as Hin by (simpl; lia).
  simpl in Hin.
  repeat (destruct Hin as [<- | Hin]; [repeat split; reflexivity|]).
  contradiction.
Qed.

Lemma getitem_mid {A : Type} (pre post : list A) (x : A) :
  getitem (pre ++ x :: post) (len pre) = Ok x.
Proof.
  unfold getitem. pose proof (len_nonneg pre) as P.
  destruct (len pre <? 0) eqn:E; [apply Z.ltb_lt in E; lia|]. rewrite E.
  rewrite len_app. unfold len at 2. cbn [List.length orb].
  destruct (_ <=? _) eqn:E2; [apply Z.leb_le in E2; lia|].
  unfold len. rewrite Nat2Z.id, nth_error_app2, Nat.sub_diag by lia.
  reflexivity.
Qed.

Lemma update_mid {A : Type} (pre post : list A) (x y v : A) :
  update (pre ++ x :: y :: post) (S (List.length pre)) v
  = (pre ++ [x]) ++ v :: post.
Proof.
  induction pre as [|h pre IH]; [reflexivity|].
  cbn [app List.length update]. now rewrite IH.
Qed.

Lemma range2_cons (a b : Z) : a < b -> range2 a b = a :: range2 (a + 1) b.
Proof.
  intros H. unfold range2.
  replace (Z.to_nat (b - a)) with (S (Z.to_nat (b - (a + 1)))) by lia.
  cbn [seq map]. rewrite <- seq_shift, map_map.
  f_equal; [lia|]. apply map_ext. intros k. lia.
Qed.

Lemma range2_nil (a b : Z) : b <= a -> range2 a b = [].
Proof.
  intros H. unfold range2. now replace (Z.to_nat (b - a)) with 0%nat by lia.
Qed.

Lemma expandKey_loop_ok (self : AES) :
  table_ok (sbox self) = true -> Rcon self = Some Rcon_init ->
  forall (m : nat) (pre : list cell) (prev : str) (post : list cell),
    is_hex prev = true -> (32 <= List.length prev)%nat ->
    (m <= List.length post)%nat ->
    len pre + 1 + Z.of_nat m <= 11 ->
    expandKey_loop self (pre ++ Some prev :: post)
      (range2 (len pre + 1) (len pre + 1 + Z.of_nat m))
    = Ok (pre ++ Some prev
            :: map Some (schedule_from (sbox self) prev
                           (range2 (len pre + 1) (len pre + 1 + Z.of_nat m)))
            ++ skipn m post).
Proof.
  intros Ht HR. induction m as [|m IH]; intros pre prev post Hp Lp Lm Hb.
  - rewrite range2_nil by lia. reflexivity.
  - pose proof (len_nonneg pre) as P.
    replace (len pre + 1 + Z.of_nat (S m)) with (len pre + 1 + 1 + Z.of_nat m)
      by lia.
    rewrite range2_cons by lia. cbn [expandKey_loop schedule_from map].
    destruct post as [|y post]; [simpl in Lm; lia|].
    destruct (rcon_at_ok (len pre + 1) ltac:(lia)) as (Hg & Hh & Hl & _).
    rewrite (expandKey_step_ok self _ _ Rcon_init (rcon_at (len pre + 1)) prev);
      try assumption.
    + cbn [bind].
      replace (Z.to_nat (len pre + 1)) with (S (List.length pre))
        by (unfold len; lia).
      rewrite update_mid.
      set (k := next_key (sbox self) (rcon_at (len pre + 1)) prev).
      assert (is_hex k = true) as Hk
        by (apply is_lower_is_hex, next_key_lower; assumption).
      assert (List.length k = 32%nat) as Lk
        by (apply next_key_length; assumption).
      assert (len (pre ++ [Some prev]) = len pre + 1) as Lpre
        by (rewrite len_app; reflexivity).
      specialize (IH (pre ++ [Some prev]) k post Hk ltac:(lia)
                     ltac:(simpl in Lm; lia) ltac:(lia)).
      rewrite Lpre in IH.
      refine (eq_trans IH _). cbn [skipn app]. rewrite <- app_assoc. reflexivity.
    + replace (len pre + 1 - 1) with (len pre) by lia. apply getitem_mid.
    + unfold len. rewrite length_app. cbn [List.length]. lia.
Qed.

Lemma expandKey_closed (self : AES) (key : str) :
  table_ok (sbox self) = true -> Rcon self = Some Rcon_init ->
  is_hex key = true -> (32 <= List.length key)%nat ->
  expandKey self key = Ok (map Some (schedule (sbox self) key)).
Proof.
  intros Ht HR Hk Lk. unfold expandKey.
  change (setitem (repeat None 11) 0 (Some key))
    with (Ok (Some key :: repeat (@None str) 10)).
  cbn [bind].
  change (len (Some key :: repeat None 10)) with 11.
  pose proof (expandKey_loop_ok self Ht HR 10 [] key (repeat None 10) Hk Lk
                ltac:(rewrite repeat_length; lia) ltac:(cbn; lia)) as L.
  change (len (@nil cell) + 1 + Z.of_nat 10) with 11 in L.
  change (len (@nil cell) + 1) with 1 in L.
  cbn [app] in L. rewrite L.
  change (range2 1 11) with [1; 2; 3; 4; 5; 6; 7; 8; 9; 10].
  change (skipn 10 (repeat (@None str) 10)) with (@nil cell).
  rewrite app_nil_r. reflexivity.
Qed.

(** Every round key after the first is the key-schedule step of §4.2
    applied to the bytes of the one before it. *)
Lemma schedule_from_spec (t : list cell) :
  table_ok t = true ->
  forall (idx : list Z) (prev : str),
    is_hex prev = true -> List.length prev = 32%nat ->
    Forall (fun i => 1 <= i <= 10) idx ->
    forall j : nat, (j < List.length idx)%nat ->
      nth (S j) (prev :: schedule_from t prev idx) []
      = hex_of_bytes
          (Spec.NextRoundKey (table_byte t) (nth j idx 0)
             (bytes_of_hex (nth j (prev :: schedule_from t prev idx) []))).
Proof.
  intros Ht idx. induction idx as [|i idx IH]; intros prev Hp Lp F j Hj.
  - simpl in Hj. lia.
  - inversion F as [|? ? Hi F']; subst.
    destruct (rcon_at_ok i Hi) as (_ & Hh & Hl & Hb).
    cbn [schedule_from].
    set (k := next_key t (rcon_at i) prev).
    assert (is_lower_hex k = true) as Hk
      by (apply next_key_lower; auto; lia).
    assert (List.length k = 32%nat) as Lk
      by (apply next_key_length; auto; lia).
    destruct j as [|j].
    + cbn [nth].
      rewrite <- (bytes_of_next_key t i (rcon_at i) prev) by assumption.
      fold k. symmetry. apply hex_of_bytes_of_hex; [assumption|].
      now rewrite Lk.
    + change (nth (S (S j)) (prev :: k :: schedule_from t k idx) [])
        with (nth (S j) (k :: schedule_from t k idx) []).
      change (nth (S j) (prev :: k :: schedule_from t k idx) [])
        with (nth j (k :: schedule_from t k idx) []).
      change (nth (S j) (i :: idx) 0) with (nth j idx 0).
      apply IH; auto using is_lower_is_hex. simpl in Hj. lia.
Qed.

(** ** What the object keeps *)

Lemma update_length {A : Type} (l : list A) (n : nat) (v : A) :
  List.length (update l n v) = List.length l.
Proof.
  revert n. induction l as [|h l IH]; intros [|n]; simpl; auto.
Qed.

Lemma setitem_length {A : Type} (l l' : list A) (i : Z) (v : A) :
  setitem l i v = Ok l' -> List.length l' = List.length l.
Proof.
  unfold setitem. destruct (_ || _); [discriminate|].
  intros [= <-]. apply update_length.
Qed.

Lemma bind_ok {A B : Type} (m : Res A) (k : A -> Res B) (b : B) :
  bind m k = Ok b -> exists a, m = Ok a /\ k a = Ok b.
Proof. destruct m as [a|e]; [eauto|discriminate]. Qed.

Lemma expandKey_step_length (self : AES) (Rk Rk' : list cell) (i : Z) :
  expandKey_step self Rk i = Ok Rk' -> List.length Rk' = List.length Rk.
Proof.
  unfold expandKey_step. intros H.
  repeat (apply bind_ok in H as (? & _ & H)).
  eapply setitem_length; eassumption.
Qed.

Lemma expandKey_loop_length (self : AES) (idx : list Z) (Rk Rk' : list cell) :
  expandKey_loop self Rk idx = Ok Rk' -> List.length Rk' = List.length Rk.
Proof.
  revert Rk. induction idx as [|i idx IH]; intros Rk H.
  - now injection H as <-.
  - cbn [expandKey_loop] in H. apply bind_ok in H as (Rk1 & H1 & H).
    apply IH in H. apply expandKey_step_length in H1. congruence.
Qed.

Lemma expandKey_length (self : AES) (key : str) (Rk : list cell) :
  expandKey self key = Ok Rk -> List.length Rk = 11%nat.
Proof.
  unfold expandKey. intros H. apply bind_ok in H as (Rk0 & H0 & H).
  apply expandKey_loop_length in H. apply setitem_length in H0.
  unfold cell in *. rewrite repeat_length in H0. lia.
Qed.

Lemma expandKey_step_ext (self1 self2 : AES) (Rk : list cell) (i : Z) :
  sbox self1 = sbox self2 -> Rcon self1 = Rcon self2 ->
  expandKey_step self1 Rk i = expandKey_step self2 Rk i.
Proof.
  intros Hs Hr. unfold expandKey_step, subByte. now rewrite Hs, Hr.
Qed.

Lemma expandKey_loop_ext (self1 self2 : AES) (idx : list Z) (Rk : list cell) :
  sbox self1 = sbox self2 -> Rcon self1 = Rcon self2 ->
  expandKey_loop self1 Rk idx = expandKey_loop self2 Rk idx.
Proof.
  intros Hs Hr. revert Rk. induction idx as [|i idx IH]; intros Rk.
  - reflexivity.
  - cbn [expandKey_loop]. rewrite (expandKey_step_ext self1 self2) by assumption.
    destruct (expandKey_step self2 Rk i); cbn [bind]; auto.
Qed.

Lemma store_Rkey (get : AES -> list cell) (set : AES -> list cell -> AES)
      (tables : list str) (i a b : Z) (self : AES) :
  (forall s t, Rkey (set s t) = Rkey s) ->
  Rkey (snd (store get set tables i a b self)) = Rkey self.
Proof.
  intros H. unfold store. destruct (getitem tables i); [|reflexivity].
  destruct (setitem _ _ _); [apply H|reflexivity].
Qed.

Lemma bindM_Rkey {A B : Type} (m : M A) (k : A -> M B) (self : AES) :
  (forall s, Rkey (snd (m s)) = Rkey s) ->
  (forall a s, Rkey (snd (k a s)) = Rkey s) ->
  Rkey (snd (bindM m k self)) = Rkey self.
Proof.
  intros Hm Hk. unfold bindM. specialize (Hm self).
  destruct (m self) as [[a|e] s']; cbn [snd] in *; [|assumption].
  now rewrite Hk.
Qed.

Lemma readTables_loop_Rkey (tables : list str) (idx : list Z) (self : AES) :
  Rkey (snd (readTables_loop tables idx self)) = Rkey self.
Proof.
  revert self. induction idx as [|i idx IH]; intros self; [reflexivity|].
  cbn [readTables_loop].
  repeat (apply bindM_Rkey;
          [intros ?; apply store_Rkey; reflexivity|intros _ ?]).
  apply IH.
Qed.

Lemma invoke_Rkey (file : resource) (c : call) (self : AES) :
  Rkey (snd (invoke file c self)) = Rkey self.
Proof.
  destruct c; try reflexivity.
  cbn [invoke]. apply bindM_Rkey; [|reflexivity].
  intros s. unfold readTables. destruct file; [|reflexivity].
  apply readTables_loop_Rkey.
Qed.

Lemma run_Rkey (file : resource) (cs : list call) (self : AES) :
  Rkey (run file cs self) = Rkey self.
Proof.
  revert self. induction cs as [|c cs IH]; intros self; [reflexivity|].
  cbn [run]. rewrite IH. apply invoke_Rkey.
Qed.

(** ** [padInv] *)

Lemma slice_suffix {A : Type} (p q : list A) :
  slice (p ++ q) (len (p ++ q) - len q) (len (p ++ q)) = q.
Proof.
  pose proof (len_nonneg p). pose proof (len_nonneg q).
  rewrite len_app. rewrite slice_nonneg by lia.
  replace (Z.to_nat (len p + len q - len q)) with (List.length p)
    by (unfold len; lia).
  replace (Z.to_nat (len p + len q - (len p + len q - len q)))
    with (List.length q) by (unfold len; lia).
  rewrite skipn_app, skipn_all, Nat.sub_diag. cbn [app skipn].
  apply firstn_all.
Qed.

Lemma slice_whole {A : Type} (s : list A) : slice s 0 (len s) = s.
Proof.
  pose proof (len_nonneg s). rewrite slice_nonneg by lia.
  replace (Z.to_nat (len s - 0)) with (List.length s) by (unfold len; lia).
  apply firstn_all.
Qed.

Lemma padInv_zero (p : str) : padInv (p ++ hs "00") = Ok (p ++ hs "00").
Proof.
  unfold padInv.
  change (len (p ++ hs "00") - 2) with (len (p ++ hs "00") - len (hs "00")).
  rewrite slice_suffix. change (int16 (hs "00")) with (Ok 0).
  cbn [bind]. change (range 0) with (@nil Z). cbn [padInv_loop bind].
  rewrite Z.sub_0_r. now rewrite slice_whole.
Qed.

(** ** The constructor *)

Lemma expandKey_short (self : AES) (key : str) :
  table_ok (sbox self) = true -> is_hex key = true ->
  (List.length key <= 30)%nat ->
  expandKey self key = Raise ValueError.
Proof.
  intros Ht Hk Lk. unfold expandKey.
  change (setitem (repeat None 11) 0 (Some key))
    with (Ok (Some key :: repeat (@None str) 10)).
  cbn [bind].
  change (range2 1 (len _)) with [1; 2; 3; 4; 5; 6; 7; 8; 9; 10].
  cbn [expandKey_loop]. unfold expandKey_step at 1, word_of.
  change (getitem (Some key :: repeat None 10) (1 - 1)) with (@Ok cell (Some key)).
  cbn [bind]. rewrite rot_2_8. cbn [bind]. unfold subByte.
  change (range 4) with [0; 1; 2; 3].
  rewrite subst_loop_short; try assumption; try reflexivity.
  - apply is_hex_app. split.
    + apply is_hex_skipn. now apply is_hex_slice.
    + apply is_hex_firstn. now apply is_hex_slice.
  - repeat constructor; lia.
  - do 3 apply Exists_cons_tl. apply Exists_cons_hd.
    unfold len. rewrite length_app, length_skipn, length_firstn.
    rewrite slice_nonneg by lia. rewrite length_firstn, length_skipn. lia.
Qed.

Lemma init_unfold (file : resource) (key iv : str) :
  init file key iv =
  match readTables file (blank_self iv) with
  | (Raise e, _) => Raise e
  | (Ok _, self) =>
      Rkey <- expandKey (set_Rcon self Rcon_init) key ;;
      Ok (set_Rkey (set_Rcon self Rcon_init) Rkey)
  end.
Proof. reflexivity. Qed.

Lemma init_Rcon (file : resource) (key iv : str) (aes : AES) :
  init file key iv = Ok aes -> Rcon aes = Some Rcon_init.
Proof.
  rewrite init_unfold. destruct (readTables file (blank_self iv)) as [[u|e] self];
    [|discriminate].
  intros H. apply bind_ok in H as (rk & _ & [= <-]). reflexivity.
Qed.

(** ** [padInv] on a whole buffer *)

Lemma int16_pair (s : str) (k : nat) :
  is_hex s = true -> (2 * k + 2 <= List.length s)%nat ->
  int16 (firstn 2 (skipn (2 * k) s)) = Ok (nth k (bytes_of_hex s) 0).
Proof.
  intros H L.
  rewrite <- (Nat.add_0_r k) at 2. rewrite <- nth_skipn, <- bytes_of_hex_skipn.
  pose proof (is_hex_skipn (2 * k) s H) as Hs.
  pose proof (length_skipn (2 * k) s) as Ls.
  destruct (skipn (2 * k) s) as [|h [|l r]]; try (simpl in Ls; lia).
  apply is_hex_cons in Hs as [Hh Hs]. apply is_hex_cons in Hs as [Hl _].
  cbn [firstn bytes_of_hex nth].
  rewrite int16_hex by (try discriminate; unfold is_hex; simpl;
                        now rewrite Hh, Hl).
  unfold value. cbn [nibbles map fold_left]. f_equal; lia.
Qed.

Lemma least_or_all (P : nat -> Prop) :
  (forall k, {P k} + {~ P k}) ->
  forall j : nat,
    (forall k, (k <= j)%nat -> P k) \/
    (exists j0, (j0 <= j)%nat /\ ~ P j0 /\ forall k, (k < j0)%nat -> P k).
Proof.
  intros dec. induction j as [|j [IH|(j0 & H0 & H1 & H2)]].
  - destruct (dec 0%nat) as [H|H].
    + left. intros k Hk. now replace k with 0%nat by lia.
    + right. exists 0%nat. repeat split; auto. intros k Hk. lia.
  - destruct (dec (S j)) as [H|H].
    + left. intros k Hk. destruct (Nat.eq_dec k (S j)) as [->|]; auto.
      apply IH. lia.
    + right. exists (S j). repeat split; auto. intros k Hk. apply IH. lia.
  - right. exists j0. repeat split; auto.
Qed.

Section PadInv.

Variables (plain : str) (n : nat).
Hypothesis Hhex : is_hex plain = true.
Hypothesis Hlen : List.length plain = (2 * n)%nat.

Lemma padInv_read (j : nat) :
  (j < n)%nat ->
  int16 (slice plain (len plain - 2 - (0 + Z.of_nat j) * 2)
               (len plain - (0 + Z.of_nat j) * 2))
  = Ok (nth (n - 1 - j) (bytes_of_hex plain) 0).
Proof.
  intros Hj. unfold len. rewrite Hlen. rewrite slice_nonneg by lia.
  replace (Z.to_nat (Z.of_nat (2 * n) - (0 + Z.of_nat j) * 2
                     - (Z.of_nat (2 * n) - 2 - (0 + Z.of_nat j) * 2)))
    with 2%nat by lia.
  replace (Z.to_nat (Z.of_nat (2 * n) - 2 - (0 + Z.of_nat j) * 2))
    with (2 * (n - 1 - j))%nat by lia.
  apply int16_pair; [assumption|lia].
Qed.

Lemma padInv_read_past :
  (1 <= n)%nat ->
  int16 (slice plain (len plain - 2 - (0 + Z.of_nat n) * 2)
               (len plain - (0 + Z.of_nat n) * 2))
  = Raise ValueError.
Proof.
  intros Hn.
  replace (len plain - 2 - (0 + Z.of_nat n) * 2) with (-2)
    by (unfold len; lia).
  replace (len plain - (0 + Z.of_nat n) * 2) with 0 by (unfold len; lia).
  unfold slice, clamp. change (-2 <? 0) with true. change (0 <? 0) with false.
  cbv iota.
  replace (Z.to_nat (Z.min 0 (len plain) - Z.max (len plain + -2) 0))
    with 0%nat by (unfold len; lia).
  reflexivity.
Qed.

Lemma padInv_loop_all (pad : Z) (m a : nat) :
  (a + m <= n)%nat ->
  (forall j, (a <= j < a + m)%nat -> nth (n - 1 - j) (bytes_of_hex plain) 0 = pad) ->
  padInv_loop plain (len plain) pad (offsets a m) = Ok None.
Proof.
  revert a. induction m as [|m IH]; intros a Ha Hall; [reflexivity|].
  unfold offsets. cbn [seq map padInv_loop]. fold (offsets (S a) m).
  rewrite padInv_read by lia. cbn [bind].
  rewrite (Hall a) by lia. rewrite Z.eqb_refl.
  apply IH; [lia|]. intros j Hj. apply Hall. lia.
Qed.

Lemma padInv_loop_mismatch (pad : Z) (m a j : nat) :
  (a <= j < a + m)%nat -> (j < n)%nat ->
  (forall k, (a <= k < j)%nat -> nth (n - 1 - k) (bytes_of_hex plain) 0 = pad) ->
  nth (n - 1 - j) (bytes_of_hex plain) 0 <> pad ->
  padInv_loop plain (len plain) pad (offsets a m) = Ok (Some plain).
Proof.
  revert a. induction m as [|m IH]; intros a Ha Hj Hall Hne; [lia|].
  unfold offsets. cbn [seq map padInv_loop]. fold (offsets (S a) m).
  rewrite padInv_read by lia. cbn [bind].
  destruct (Nat.eq_dec a j) as [->|Hd].
  - apply Z.eqb_neq in Hne. now rewrite Hne.
  - rewrite (Hall a) by lia. rewrite Z.eqb_refl.
    apply IH; try assumption; [lia|]. intros k Hk. apply Hall. lia.
Qed.

Lemma padInv_loop_past (pad : Z) (m a : nat) :
  (1 <= n)%nat -> (a <= n < a + m)%nat ->
  (forall k, (a <= k < n)%nat -> nth (n - 1 - k) (bytes_of_hex plain) 0 = pad) ->
  padInv_loop plain (len plain) pad (offsets a m) = Raise ValueError.
Proof.
  intros Hn. revert a. induction m as [|m IH]; intros a Ha Hall; [lia|].
  unfold offsets. cbn [seq map padInv_loop]. fold (offsets (S a) m).
  destruct (Nat.eq_dec a n) as [->|Hd].
  - now rewrite padInv_read_past.
  - rewrite padInv_read by lia. cbn [bind].
    rewrite (Hall a) by lia. rewrite Z.eqb_refl.
    apply IH; [lia|]. intros k Hk. apply Hall. lia.
Qed.

(** X14: what [padInv] does on a buffer of [n >= 1] bytes whose last
    byte is [p]: it strips the last [p] bytes when the buffer has that many and
    they all equal [p]; it returns the buffer when one of the last [p]
    bytes that exist differs from [p]; and it raises [ValueError] when the
    buffer is shorter than [p] bytes and all of them equal [p]. *)
Lemma padInv_cases :
  (1 <= n)%nat ->
  let p := nth (n - 1) (bytes_of_hex plain) 0 in
  ((Z.to_nat p <= n)%nat ->
   (forall j, (j < Z.to_nat p)%nat -> nth (n - 1 - j) (bytes_of_hex plain) 0 = p) ->
   padInv plain = Ok (firstn (2 * (n - Z.to_nat p)) plain)) /\
  ((exists j, (j < Z.to_nat p)%nat /\ (j < n)%nat /\
              nth (n - 1 - j) (bytes_of_hex plain) 0 <> p) ->
   padInv plain = Ok plain) /\
  ((n < Z.to_nat p)%nat ->
   (forall j, (j < n)%nat -> nth (n - 1 - j) (bytes_of_hex plain) 0 = p) ->
   padInv plain = Raise ValueError).
Proof.
  intros Hn p.
  assert (int16 (slice plain (len plain - 2) (len plain)) = Ok p) as Hp.
  { pose proof (padInv_read 0 ltac:(lia)) as R.
    replace (len plain - 2 - (0 + Z.of_nat 0) * 2) with (len plain - 2) in R by lia.
    replace (len plain - (0 + Z.of_nat 0) * 2) with (len plain) in R by lia.
    rewrite R. subst p. do 2 f_equal. lia. }
  assert (0 <= p < 256) as Rp.
  { pose proof (bytes_of_hex_range plain Hhex) as F.
    rewrite Forall_forall in F. apply F. subst p. apply nth_In.
    rewrite bytes_of_hex_length, Hlen. 
    replace (2 * n)%nat with (n + n)%nat by lia.
    assert (Nat.div2 (n + n) = n) as -> by (clear; induction n as [|k IH]; [reflexivity|];
      replace (S k + S k)%nat with (S (S (k + k))) by lia; simpl; now rewrite IH).
    lia. }
  assert (range p = offsets 0 (Z.to_nat p)) as Hr.
  { unfold range, range2, offsets. now rewrite Z.sub_0_r. }
  unfold padInv. rewrite Hp. cbn [bind]. rewrite Hr.
  split; [|split].
  - intros Hle Hall.
    rewrite padInv_loop_all by (try lia; intros j Hj; apply Hall; lia).
    cbn [bind]. f_equal. rewrite slice_nonneg by (unfold len; lia).
    cbn [Z.to_nat skipn]. f_equal. unfold len. lia.
  - intros (j & Hj & Hjn & Hne).
    destruct (least_or_all (fun k => nth (n - 1 - k) (bytes_of_hex plain) 0 = p)
                (fun k => Z.eq_dec _ _) j) as [Hall|(j0 & Hj0 & Hne0 & Hlow)];
      [exfalso; apply Hne, Hall; lia|].
    rewrite (padInv_loop_mismatch p (Z.to_nat p) 0 j0); try assumption; try lia.
    + reflexivity.
    + intros k Hk. apply Hlow. lia.
  - intros Hlt Hall.
    rewrite padInv_loop_past; try assumption; try lia; [reflexivity|].
    intros k Hk. apply Hall. lia.
Qed.

End PadInv.

(** * The claims *)

(** C1 (the code differs): [decryptBlock] hands its argument back.  On the
    object built from the known-answer key, the ciphertext block
    69c4e0d86a7b0430d8cdb78070b4c55a comes back unchanged, which is not the
    plaintext block 00112233445566778899aabbccddeeff; no round key, table
    or inverse round operation takes part. *)
Theorem decryptBlock_returns_its_argument :
  init tables_txt kat_key kat_iv = Ok kat_aes /\
  decryptBlock kat_aes kat_cipher = Ok kat_cipher /\
  kat_cipher <> kat_plain /\
  (forall (self : AES) (block : str), decryptBlock self block = Ok block).
Proof.
  split; [vm_compute; reflexivity|]. split; [reflexivity|].
  split; [discriminate|reflexivity].
Qed.

(** C2: for every 16-byte root key (32 hex digits), on an object whose
    S-box table is well formed and whose round constants are those the
    constructor installs, [expandKey] returns exactly 11 round keys: round
    key 0 is the root key, and round key i (1 <= i <= 10) is the
    key-schedule step of §4.2 applied to the bytes of round key i-1, with
    the round constant [Rcon[i]] whose bytes are (rc_i, 0, 0, 0) for rc_i
    the i-th of 01, 02, 04, 08, 10, 20, 40, 80, 1B, 36. *)
Theorem expandKey_round_keys (self : AES) (key : str) :
  table_ok (sbox self) = true -> Rcon self = Some Rcon_init ->
  is_hex key = true -> List.length key = 32%nat ->
  exists ks : list str,
    expandKey self key = Ok (map Some ks) /\
    List.length ks = 11%nat /\
    nth 0 ks [] = key /\
    (forall i : nat, (1 <= i <= 10)%nat ->
       nth i ks []
       = hex_of_bytes
           (Spec.NextRoundKey (table_byte (sbox self)) (Z.of_nat i)
              (bytes_of_hex (nth (i - 1) ks [])))) /\
    (forall i : Z, 1 <= i <= 10 ->
       exists rc, getitem Rcon_init i = Ok rc /\
                  bytes_of_hex rc = Spec.RoundConstant i).
Proof.
  intros Ht HR Hk Lk. exists (schedule (sbox self) key).
  split; [apply expandKey_closed; auto; lia|].
  split; [reflexivity|]. split; [reflexivity|]. split.
  - intros i Hi. destruct i as [|j]; [lia|].
    replace (S j - 1)%nat with j by lia. unfold schedule.
    rewrite (schedule_from_spec (sbox self) Ht
               [1; 2; 3; 4; 5; 6; 7; 8; 9; 10] key Hk Lk);
      [|repeat constructor; lia|simpl; lia].
    do 2 f_equal.
    do 10 (destruct j as [|j]; [reflexivity|]). lia.
  - intros i Hi. destruct (rcon_at_ok i Hi) as (Hg & _ & _ & Hb). eauto.
Qed.

Lemma expandKey_round_keys_witness :
  exists ks : list str,
    expandKey kat_aes kat_key = Ok (map Some ks) /\
    List.length ks = 11%nat /\
    nth 0 ks [] = kat_key /\
    (forall i : nat, (1 <= i <= 10)%nat ->
       nth i ks []
       = hex_of_bytes
           (Spec.NextRoundKey (table_byte (sbox kat_aes)) (Z.of_nat i)
              (bytes_of_hex (nth (i - 1) ks [])))) /\
    (forall i : Z, 1 <= i <= 10 ->
       exists rc, getitem Rcon_init i = Ok rc /\
                  bytes_of_hex rc = Spec.RoundConstant i).
Proof.
  apply (expandKey_round_keys kat_aes kat_key); vm_compute; reflexivity.
Defined.

(** C3 (the code differs): [decrypt] raises [NameError] on every input,
    whatever its length: on a 15-byte and on a 17-byte ciphertext, and on
    a 16-byte one as well.  No length is checked and no error names the
    block length. *)
Theorem decrypt_raises_NameError :
  decrypt kat_aes (List.concat (repeat (hs "00") 15)) = Raise NameError /\
  decrypt kat_aes (List.concat (repeat (hs "00") 17)) = Raise NameError /\
  (forall (self : AES) (cipher : str), decrypt self cipher = Raise NameError).
Proof. repeat split. Qed.

(** C4 (the code differs): on the 16-byte buffer whose every byte is 0x11
    the candidate pad length is 17; all 16 bytes equal it, the loop runs
    past the start of the buffer and [int] of an empty slice raises
    [ValueError]: the buffer is neither stripped nor returned. *)
Theorem padInv_raises_past_the_start :
  padInv (List.concat (repeat (hs "11") 16)) = Raise ValueError.
Proof. vm_compute. reflexivity. Qed.

Lemma slice_tail {A : Type} (p q : list A) (x y x' y' : Z) :
  0 <= x' <= y' -> y' <= len q -> x = len p + x' -> y = len p + y' ->
  slice (p ++ q) x y = slice q x' y'.
Proof.
  intros H Hq -> ->. pose proof (len_nonneg p).
  rewrite !slice_nonneg by lia.
  replace (Z.to_nat (len p + x')) with (List.length p + Z.to_nat x')%nat
    by (unfold len; lia).
  rewrite skipn_app, skipn_all2 by lia. cbn [app].
  replace (List.length p + Z.to_nat x' - List.length p)%nat
    with (Z.to_nat x') by lia.
  f_equal. lia.
Qed.

Lemma slice_head {A : Type} (p q : list A) (y : Z) :
  y = len p -> slice (p ++ q) 0 y = p.
Proof.
  intros ->. pose proof (len_nonneg p). rewrite slice_nonneg by lia.
  replace (Z.to_nat (len p - 0)) with (List.length p) by (unfold len; lia).
  cbn [skipn Z.to_nat]. rewrite firstn_app, firstn_all, Nat.sub_diag.
  cbn [firstn]. apply app_nil_r.
Qed.

(** The two examples of C4 hold on the code, whatever precedes them: a
    buffer ending in 04 04 04 04 loses exactly those four bytes, and one
    ending in 05 03 comes back unmodified. *)
Lemma padInv_strips_four (p : str) : padInv (p ++ hs "04040404") = Ok p.
Proof.
  assert (len (hs "04040404") = 8) as Lq by reflexivity.
  unfold padInv. rewrite len_app, Lq.
  rewrite (slice_tail p _ _ _ 6 8) by lia.
  change (int16 (slice (hs "04040404") 6 8)) with (Ok 4). cbn [bind].
  change (range 4) with [0; 1; 2; 3]. cbn [padInv_loop].
  rewrite (slice_tail p _ _ _ 6 8) by lia.
  change (int16 (slice (hs "04040404") 6 8)) with (Ok 4). cbn [bind].
  change (4 =? 4) with true. cbv iota.
  rewrite (slice_tail p _ _ _ 4 6) by lia.
  change (int16 (slice (hs "04040404") 4 6)) with (Ok 4). cbn [bind].
  change (4 =? 4) with true. cbv iota.
  rewrite (slice_tail p _ _ _ 2 4) by lia.
  change (int16 (slice (hs "04040404") 2 4)) with (Ok 4). cbn [bind].
  change (4 =? 4) with true. cbv iota.
  rewrite (slice_tail p _ _ _ 0 2) by lia.
  change (int16 (slice (hs "04040404") 0 2)) with (Ok 4). cbn [bind].
  change (4 =? 4) with true. cbv iota.
  rewrite slice_head by lia. reflexivity.
Qed.

Lemma padInv_keeps_mismatch (p : str) :
  padInv (p ++ hs "0503") = Ok (p ++ hs "0503").
Proof.
  assert (len (hs "0503") = 4) as Lq by reflexivity.
  unfold padInv. rewrite len_app, Lq.
  rewrite (slice_tail p _ _ _ 2 4) by lia.
  change (int16 (slice (hs "0503") 2 4)) with (Ok 3). cbn [bind].
  change (range 3) with [0; 1; 2]. cbn [padInv_loop].
  rewrite (slice_tail p _ _ _ 2 4) by lia.
  change (int16 (slice (hs "0503") 2 4)) with (Ok 3). cbn [bind].
  change (3 =? 3) with true. cbv iota.
  rewrite (slice_tail p _ _ _ 0 2) by lia.
  change (int16 (slice (hs "0503") 0 2)) with (Ok 5). cbn [bind].
  reflexivity.
Qed.

(** C5, as stated, fails: a 20-byte key is accepted. *)
Lemma init_accepts_20_byte_key :
  List.length (hs "000102030405060708090a0b0c0d0e0f10111213") = 40%nat /\
  succeeds (init tables_txt (hs "000102030405060708090a0b0c0d0e0f10111213")
                 kat_iv).
Proof.
  split; [reflexivity|]. unfold succeeds. eexists. vm_compute. reflexivity.
Qed.

(** C5, amended: the constructor checks no key length.  When the table
    resource loads with a well-formed S-box, construction succeeds for
    every key of at least 16 bytes of hex digits (in particular for every
    16-byte key, and then [Rkey] holds the schedule of that key), and it
    fails with [ValueError] for every hex key of at most 15 bytes. *)
Theorem init_key_length (file : resource) (key iv : str) (self : AES) :
  readTables file (blank_self iv) = (Ok tt, self) ->
  table_ok (sbox self) = true ->
  is_hex key = true ->
  ((32 <= List.length key)%nat ->
     exists aes, init file key iv = Ok aes /\
                 Rkey aes = Some (map Some (schedule (sbox self) key))) /\
  ((List.length key <= 30)%nat -> init file key iv = Raise ValueError).
Proof.
  intros HR Ht Hk. rewrite init_unfold, HR. split; intros Lk.
  - rewrite (expandKey_closed (set_Rcon self Rcon_init) key Ht eq_refl Hk Lk).
    cbn [bind]. eexists. split; reflexivity.
  - rewrite (expandKey_short (set_Rcon self Rcon_init) key Ht Hk Lk).
    reflexivity.
Qed.

Lemma init_key_length_witness :
  ((32 <= List.length kat_key)%nat ->
     exists aes, init tables_txt kat_key kat_iv = Ok aes /\
                 Rkey aes
                 = Some (map Some (schedule (sbox (snd (readTables tables_txt
                                      (blank_self kat_iv)))) kat_key))) /\
  ((List.length kat_key <= 30)%nat ->
     init tables_txt kat_key kat_iv = Raise ValueError).
Proof.
  apply (init_key_length tables_txt kat_key kat_iv
           (snd (readTables tables_txt (blank_self kat_iv))));
    vm_compute; reflexivity.
Defined.

(** C6, as stated, fails: operands of two lengths give a result. *)
Lemma xor_accepts_length_mismatch :
  List.length (hs "ff") <> List.length (hs "0f0f") /\
  xor (hs "ff") (hs "0f0f") 4 = Ok (hs "0ff0").
Proof. split; [discriminate|reflexivity]. Qed.

(** C6, amended: [xor] checks no length.  On any two non-empty hex
    buffers it returns a result, whatever their lengths; when the two have
    one length and [length] is that number of digits, the result is their
    digit-by-digit, hence byte-wise, exclusive-or, in lower case and of
    the same length. *)
Theorem xor_bytewise (a b : str) (n : Z) :
  is_hex a = true -> is_hex b = true -> a <> [] -> b <> [] ->
  succeeds (xor a b n) /\
  (List.length a = List.length b ->
     xor a b (len a) = Ok (xor_digits a b) /\
     List.length (xor_digits a b) = List.length a /\
     bytes_of_hex (xor_digits a b)
     = Spec.XOR (bytes_of_hex a) (bytes_of_hex b)).
Proof.
  intros Ha Hb Na Nb. split; [now apply xor_succeeds|].
  intros L. split; [now apply xor_hex|].
  split; [now apply xor_digits_length|now apply bytes_of_hex_xor].
Qed.

Lemma xor_bytewise_witness :
  succeeds (xor (hs "ff00") (hs "0F0f") 4) /\
  (List.length (hs "ff00") = List.length (hs "0F0f") ->
     xor (hs "ff00") (hs "0F0f") (len (hs "ff00"))
     = Ok (xor_digits (hs "ff00") (hs "0F0f")) /\
     List.length (xor_digits (hs "ff00") (hs "0F0f")) = List.length (hs "ff00") /\
     bytes_of_hex (xor_digits (hs "ff00") (hs "0F0f"))
     = Spec.XOR (bytes_of_hex (hs "ff00")) (bytes_of_hex (hs "0F0f"))).
Proof.
  apply (xor_bytewise (hs "ff00") (hs "0F0f") 4);
    solve [reflexivity | discriminate].
Defined.

(** C7 (the code differs): [shiftRowsInv] raises [NameError] on every
    input, so on no State does it return the rows shifted right; for the
    State 00 01 .. 0f the specification asks for
    000d0a0704010e0b0805020f0c090603. *)
Theorem shiftRowsInv_raises_NameError :
  hex_of_bytes (Spec.InverseShiftRows (bytes_of_hex kat_key))
    = hs "000d0a0704010e0b0805020f0c090603" /\
  shiftRowsInv kat_aes kat_key = Raise NameError /\
  (forall (self : AES) (bytes : str), shiftRowsInv self bytes = Raise NameError).
Proof. repeat split. Qed.

(** C8: [expandKey] reads the object only through its S-box table and its
    round constants: two objects that agree on these give the same result
    on the same key, whatever else they hold; a result it returns has 11
    round keys; and no sequence of method calls on a constructed object
    changes its [Rkey]. *)
Theorem expandKey_deterministic
        (self1 self2 : AES) (key : str) (file : resource) (cs : list call) :
  sbox self1 = sbox self2 -> Rcon self1 = Rcon self2 ->
  expandKey self1 key = expandKey self2 key /\
  (forall Rk, expandKey self1 key = Ok Rk -> List.length Rk = 11%nat) /\
  Rkey (run file cs self1) = Rkey self1.
Proof.
  intros Hs Hr. split; [|split].
  - unfold expandKey. destruct (setitem _ _ _); cbn [bind]; [|reflexivity].
    now apply expandKey_loop_ext.
  - intros Rk. apply expandKey_length.
  - apply run_Rkey.
Qed.

Lemma expandKey_deterministic_witness :
  expandKey kat_aes kat_key
  = expandKey (set_sboxInv kat_aes []) kat_key /\
  (forall Rk, expandKey kat_aes kat_key = Ok Rk -> List.length Rk = 11%nat) /\
  Rkey (run None [ReadTables; ExpandKey kat_plain; Decrypt kat_cipher] kat_aes)
  = Rkey kat_aes.
Proof.
  apply (expandKey_deterministic kat_aes (set_sboxInv kat_aes []) kat_key None
           [ReadTables; ExpandKey kat_plain; Decrypt kat_cipher]);
    vm_compute; reflexivity.
Defined.

(** C9: [padInv] puts no upper bound of 16 on the pad length: the 20-byte
    buffer whose every byte is 0x14 comes back empty, all 20 bytes
    stripped; and a buffer whose last byte is 0x00 comes back unchanged,
    pad length 0 is not rejected. *)
Theorem padInv_no_upper_bound :
  padInv (List.concat (repeat (hs "14") 20)) = Ok [] /\
  (forall p : str, padInv (p ++ hs "00") = Ok (p ++ hs "00")).
Proof. split; [vm_compute; reflexivity|apply padInv_zero]. Qed.

(** C10, as stated, fails at length 0: the empty string is no number. *)
Lemma xor_empty_raises :
  is_lower_hex [] = true /\ len (@nil ascii) = 0 /\
  (c <- xor [] [] 0 ;; xor c [] 0) = Raise ValueError.
Proof. repeat split. Qed.

(** C10, amended: for every length n >= 1 and lower-case hex strings a and
    b of exactly n characters, [xor(a, b, n)] has exactly n characters and
    [xor(xor(a, b, n), b, n)] is a. *)
Theorem xor_twice_is_identity (n : Z) (a b : str) :
  1 <= n -> is_lower_hex a = true -> is_lower_hex b = true ->
  len a = n -> len b = n ->
  exists c, xor a b n = Ok c /\ len c = n /\ xor c b n = Ok a.
Proof.
  intros Hn Ha Hb La Lb.
  pose proof (is_lower_is_hex a Ha) as Ha'.
  pose proof (is_lower_is_hex b Hb) as Hb'.
  assert (List.length a = List.length b) as L by (unfold len in *; lia).
  assert (a <> []) as Na by (intros ->; unfold len in La; simpl in La; lia).
  exists (xor_digits a b).
  assert (List.length (xor_digits a b) = List.length a) as Lc
    by now apply xor_digits_length.
  split; [|split].
  - rewrite <- La. now apply xor_hex.
  - unfold len in *. lia.
  - replace n with (len (xor_digits a b)) by (unfold len in *; lia).
    rewrite xor_hex.
    + f_equal. unfold xor_digits at 1. rewrite nibbles_xor_digits by assumption.
      rewrite zipxor_involutive by (rewrite !nibbles_length; assumption).
      now apply hexchar_nibbles.
    + apply is_lower_is_hex. now apply xor_digits_lower.
    + assumption.
    + lia.
    + intros E. rewrite E in Lc. destruct a; [congruence|discriminate].
Qed.

Lemma xor_twice_is_identity_witness :
  exists c, xor (hs "00ff") (hs "a5c3") 4 = Ok c /\ len c = 4 /\
            xor c (hs "a5c3") 4 = Ok (hs "00ff").
Proof.
  apply (xor_twice_is_identity 4 (hs "00ff") (hs "a5c3")); solve [lia | reflexivity].
Defined.

(** * Further properties of the methods *)

(** The evaluated object is the one the constructor builds from the
    evaluated table file. *)
Lemma std_aes_built : init std_txt kat_key kat_iv = Ok std_aes.
Proof. vm_compute. reflexivity. Qed.

(** ** [rot] *)

Lemma rot_split (s : str) (n w : Z) :
  w <> 0 ->
  rot s n w = Ok (skipn (Z.to_nat (clamp (len s) (n mod w))) s
                    ++ firstn (Z.to_nat (clamp (len s) (n mod w))) s).
Proof.
  intros H. unfold rot. destruct (w =? 0) eqn:E; [apply Z.eqb_eq in E; lia|].
  reflexivity.
Qed.

Lemma clamp_range (l i : Z) : 0 <= l -> 0 <= clamp l i <= l.
Proof.
  intros H. unfold clamp.
  destruct (i <? 0) eqn:E; [apply Z.ltb_lt in E|apply Z.ltb_ge in E]; lia.
Qed.

(** X1: with [w <> 0], [rot(string, n, w)] returns the string cut at one
    point with the two parts swapped, so a string of the same length and
    the same characters; the cut is at [n % w] when that is between 0 and
    the length of the string. *)
Theorem rot_is_rotation (s : str) (n w : Z) :
  w <> 0 ->
  exists c : nat,
    (c <= List.length s)%nat /\
    rot s n w = Ok (skipn c s ++ firstn c s) /\
    (0 <= n mod w <= len s -> c = Z.to_nat (n mod w)) /\
    forall r, rot s n w = Ok r -> List.length r = List.length s.
Proof.
  intros H. pose proof (clamp_range (len s) (n mod w) (len_nonneg s)) as R.
  exists (Z.to_nat (clamp (len s) (n mod w))).
  split; [unfold len in *; lia|]. split; [now apply rot_split|]. split.
  - intros B. unfold clamp. destruct (n mod w <? 0) eqn:E;
      [apply Z.ltb_lt in E; lia|]. f_equal. lia.
  - intros r. rewrite rot_split by assumption. intros [= <-].
    rewrite length_app, length_skipn, length_firstn. unfold len in *. lia.
Qed.

Lemma rot_is_rotation_witness :
  exists c : nat,
    (c <= List.length (hs "0a0b0c0d"))%nat /\
    rot (hs "0a0b0c0d") 2 8 = Ok (skipn c (hs "0a0b0c0d") ++ firstn c (hs "0a0b0c0d")) /\
    (0 <= 2 mod 8 <= len (hs "0a0b0c0d") -> c = Z.to_nat (2 mod 8)) /\
    forall r, rot (hs "0a0b0c0d") 2 8 = Ok r ->
              List.length r = List.length (hs "0a0b0c0d").
Proof. apply (rot_is_rotation (hs "0a0b0c0d") 2 8). lia. Defined.

Lemma rot_nat (s : str) (n w : Z) :
  0 < w -> len s = w ->
  rot s n w = Ok (skipn (Z.to_nat (n mod w)) s ++ firstn (Z.to_nat (n mod w)) s).
Proof.
  intros Hw L. pose proof (Z.mod_pos_bound n w Hw) as B.
  rewrite rot_split by lia. unfold clamp.
  destruct (n mod w <? 0) eqn:E; [apply Z.ltb_lt in E; lia|].
  now rewrite Z.min_l by lia.
Qed.

Lemma skipn_exact {A : Type} (x r : list A) (n : nat) :
  List.length x = n -> skipn n (x ++ r) = r.
Proof.
  intros <-. rewrite skipn_app, skipn_all, Nat.sub_diag. reflexivity.
Qed.

Lemma firstn_exact {A : Type} (x r : list A) (n : nat) :
  List.length x = n -> firstn n (x ++ r) = x.
Proof.
  intros <-. rewrite firstn_app, firstn_all, Nat.sub_diag.
  cbn [firstn]. apply app_nil_r.
Qed.

Lemma split3 {A : Type} (s : list A) (a b : nat) :
  (a + b <= List.length s)%nat ->
  exists x y z, s = x ++ y ++ z /\ List.length x = a /\ List.length y = b.
Proof.
  intros H. exists (firstn a s), (firstn b (skipn a s)), (skipn b (skipn a s)).
  rewrite !firstn_skipn. repeat split.
  - rewrite length_firstn. lia.
  - rewrite length_firstn, length_skipn. lia.
Qed.

Lemma rotate_rotate {A : Type} (s : list A) (a b : nat) :
  (a <= List.length s)%nat -> (b <= List.length s)%nat ->
  skipn b (skipn a s ++ firstn a s) ++ firstn b (skipn a s ++ firstn a s)
  = if (a + b <=? List.length s)%nat
    then skipn (a + b) s ++ firstn (a + b) s
    else skipn (a + b - List.length s) s ++ firstn (a + b - List.length s) s.
Proof.
  intros Ha Hb. destruct (a + b <=? List.length s)%nat eqn:E.
  - apply Nat.leb_le in E.
    destruct (split3 s a b E) as (x & y & z & -> & Lx & Ly).
    rewrite (skipn_exact x), (firstn_exact x) by assumption.
    rewrite <- app_assoc.
    rewrite (skipn_exact y), (firstn_exact y) by assumption.
    rewrite (app_assoc x y z).
    rewrite (skipn_exact (x ++ y)), (firstn_exact (x ++ y))
      by (rewrite length_app; lia).
    now rewrite <- app_assoc.
  - apply Nat.leb_gt in E.
    set (c := (a + b - List.length s)%nat).
    assert (c <= a)%nat as Hc by (subst c; lia).
    assert (b = List.length s - a + c)%nat as Hcb by (subst c; lia).
    clearbody c.
    destruct (split3 s c (a - c) ltac:(lia)) as (x & y & z & Hs & Lx & Ly).
    assert (List.length z = (List.length s - a)%nat) as Lz
      by (rewrite Hs, !length_app; lia).
    rewrite Hs in Hcb, Lz |- *. rewrite !length_app in Hcb, Lz.
    rewrite (skipn_exact x _ c), (firstn_exact x _ c) by assumption.
    rewrite (app_assoc x y z).
    rewrite (skipn_exact (x ++ y) _ a), (firstn_exact (x ++ y) _ a)
      by (rewrite length_app; lia).
    rewrite (app_assoc z x y).
    rewrite (skipn_exact (z ++ x) _ b), (firstn_exact (z ++ x) _ b)
      by (rewrite length_app; lia).
    now rewrite <- !app_assoc.
Qed.

(** X2: on a string of exactly [w] characters, [w > 0], rotating by [a]
    and then by [b] is rotating by [a + b]; in particular rotating back by
    [-a] (or by [w - a]) restores the string. *)
Theorem rot_compose (s : str) (a b w : Z) :
  0 < w -> len s = w ->
  (r <- rot s a w ;; rot r b w) = rot s (a + b) w /\
  (r <- rot s a w ;; rot r (- a) w) = Ok s /\
  (r <- rot s a w ;; rot r (w - a) w) = Ok s.
Proof.
  intros Hw L.
  assert (forall b', (r <- rot s a w ;; rot r b' w) = rot s (a + b') w) as C.
  { intros b'. pose proof (Z.mod_pos_bound a w Hw) as Ba.
    pose proof (Z.mod_pos_bound b' w Hw) as Bb.
    pose proof (Z.mod_pos_bound (a + b') w Hw) as Bab.
    rewrite (rot_nat s a w Hw L). cbn [bind].
    rewrite rot_nat; [|assumption|].
    2:{ unfold len in *. rewrite length_app, length_skipn, length_firstn. lia. }
    rewrite (rot_nat s (a + b') w Hw L). f_equal.
    rewrite rotate_rotate by (unfold len in L; lia).
    rewrite Z.add_mod by lia.
    destruct (_ <=? _)%nat eqn:E.
    - apply Nat.leb_le in E.
      destruct (Z.eq_dec (a mod w + b' mod w) w) as [Ew|Ew].
      + rewrite Ew, Z.mod_same by lia.
        replace (Z.to_nat (a mod w) + Z.to_nat (b' mod w))%nat
          with (List.length s) by (unfold len in L; lia).
        rewrite skipn_all, firstn_all. cbn [Z.to_nat skipn firstn app].
        now rewrite app_nil_r.
      + rewrite (Z.mod_small (a mod w + b' mod w)) by (unfold len in L; lia).
        now rewrite Z2Nat.inj_add by lia.
    - apply Nat.leb_gt in E.
      replace ((a mod w + b' mod w) mod w) with (a mod w + b' mod w - w).
      + do 2 f_equal; unfold len in L; lia.
      + apply Z.mod_unique with 1; unfold len in L; lia. }
  split; [apply C|].
  assert (rot s 0 w = Ok s) as R0.
  { rewrite (rot_nat s 0 w Hw L). rewrite Z.mod_0_l by lia.
    cbn [Z.to_nat skipn firstn]. now rewrite app_nil_r. }
  split.
  - rewrite C. now replace (a + - a) with 0 by lia.
  - rewrite C. replace (a + (w - a)) with w by lia.
    rewrite (rot_nat s w w Hw L), Z.mod_same by lia.
    cbn [Z.to_nat skipn firstn]. now rewrite app_nil_r.
Qed.

Lemma rot_compose_witness :
  (r <- rot (hs "0a0b0c0d") 2 8 ;; rot r 4 8) = rot (hs "0a0b0c0d") (2 + 4) 8 /\
  (r <- rot (hs "0a0b0c0d") 2 8 ;; rot r (- 2) 8) = Ok (hs "0a0b0c0d") /\
  (r <- rot (hs "0a0b0c0d") 2 8 ;; rot r (8 - 2) 8) = Ok (hs "0a0b0c0d").
Proof. apply (rot_compose (hs "0a0b0c0d") 2 4 8); [lia|reflexivity]. Defined.

(** ** [subByte] and [subByteInv] *)

Lemma range_offsets (n : Z) : range n = offsets 0 (Z.to_nat n).
Proof. unfold range, range2, offsets. now rewrite Z.sub_0_r. Qed.

Lemma In_range (n b : Z) : 0 <= b < n -> In b (range n).
Proof.
  intros H. unfold range, range2. apply in_map_iff.
  exists (Z.to_nat b). split; [lia|]. apply in_seq. lia.
Qed.

Lemma byte_at_nth (s : str) (k : nat) :
  is_hex s = true -> (2 * k + 2 <= List.length s)%nat ->
  byte_at s (0 + Z.of_nat k) = nth k (bytes_of_hex s) 0.
Proof.
  intros H L. pose proof (int16_pair s k H L) as P.
  unfold byte_at. rewrite slice_nonneg by lia.
  replace (Z.to_nat ((0 + Z.of_nat k) * 2 + 2 - (0 + Z.of_nat k) * 2))
    with 2%nat by lia.
  replace (Z.to_nat ((0 + Z.of_nat k) * 2)) with (2 * k)%nat by lia.
  rewrite int16_hex in P.
  - now injection P.
  - now apply is_hex_firstn, is_hex_skipn.
  - intros E. apply (f_equal (@List.length ascii)) in E.
    rewrite length_firstn, length_skipn in E.
    change (List.length (@nil ascii)) with 0%nat in E. lia.
Qed.

Lemma nth_offsets {A : Type} (l : list A) (d : A) (a m : nat) :
  (a + m <= List.length l)%nat ->
  map (fun k => nth k l d) (seq a m) = firstn m (skipn a l).
Proof.
  revert a l. induction m as [|m IH]; intros a l H; [reflexivity|].
  cbn [seq map]. rewrite IH by lia.
  rewrite <- (Nat.add_0_r a) at 1. rewrite <- nth_skipn.
  replace (skipn (S a) l) with (skipn 1 (skipn a l))
    by (rewrite skipn_skipn; f_equal; lia).
  pose proof (length_skipn a l) as Ls.
  destruct (skipn a l) as [|x r]; [simpl in Ls; lia|]. reflexivity.
Qed.

Lemma div2_lower (m L : nat) : (2 * m <= L)%nat -> (m <= Nat.div2 L)%nat.
Proof.
  intros H. rewrite Nat.div2_div. apply Nat.div_le_lower_bound; lia.
Qed.

Lemma bytes_of_substituted (t : list cell) (bytes : str) (idx : list Z) :
  table_ok t = true -> is_hex bytes = true -> Forall (fun i => 0 <= i) idx ->
  bytes_of_hex (flat_map (fun i => table_str t (byte_at bytes i)) idx)
  = map (fun i => table_byte t (byte_at bytes i)) idx.
Proof.
  intros Ht Hb. induction 1 as [|i idx Hi _ IH]; [reflexivity|].
  cbn [flat_map map].
  destruct (table_ok_lookup t _ Ht (byte_at_range bytes i Hb Hi)) as (_ & _ & L).
  rewrite bytes_of_hex_app by (rewrite L; reflexivity).
  rewrite IH, table_pair by (auto using byte_at_range).
  reflexivity.
Qed.

Lemma bytes_read (bytes : str) (n : Z) :
  is_hex bytes = true -> 0 <= n -> 2 * n <= len bytes ->
  map (byte_at bytes) (range n) = firstn (Z.to_nat n) (bytes_of_hex bytes).
Proof.
  intros Hb Hn L. rewrite range_offsets. unfold offsets. rewrite map_map.
  change (bytes_of_hex bytes) with (skipn 0 (bytes_of_hex bytes)).
  rewrite <- (nth_offsets _ 0)
    by (rewrite bytes_of_hex_length; apply div2_lower; unfold len in L; lia).
  apply map_ext_in. intros k Hk. apply in_seq in Hk.
  apply byte_at_nth; [assumption|unfold len in L; lia].
Qed.

(** The substitution loop through a well-formed table, on bytes. *)
Lemma subst_loop_bytes (t : list cell) (bytes : str) (n : Z) :
  table_ok t = true -> is_hex bytes = true ->
  0 <= n -> 2 * n <= len bytes ->
  exists r,
    subst_loop t bytes (range n) [] = Ok r /\
    List.length r = (2 * Z.to_nat n)%nat /\
    is_hex r = true /\
    bytes_of_hex r = map (table_byte t) (firstn (Z.to_nat n) (bytes_of_hex bytes)).
Proof.
  intros Ht Hb Hn L.
  assert (Forall (fun i => 0 <= i /\ i * 2 < len bytes) (range n)) as F.
  { apply Forall_forall. intros i Hi. unfold range, range2 in Hi.
    apply in_map_iff in Hi as (k & <- & Hk). apply in_seq in Hk. lia. }
  assert (Forall (fun i => 0 <= i) (range n)) as F0
    by (eapply Forall_impl; [|exact F]; cbv beta; intros; lia).
  eexists. split; [now apply subst_loop_ok|]. cbn [app].
  destruct (sub_str_ok t bytes (range n) Ht Hb F0) as [H1 H2].
  split; [|split; [assumption|]].
  - rewrite H2. unfold range, range2. rewrite length_map, length_seq. lia.
  - rewrite bytes_of_substituted by assumption.
    rewrite <- (bytes_read bytes n) by assumption. now rewrite map_map.
Qed.

(** X3: through well-formed tables, [subByte(bytes, length)] and
    [subByteInv(bytes, length)] on a hex string of at least [length] bytes
    return [2 * length] hex digits: the first [length] bytes of the input,
    each replaced by the byte its table holds at that index; what follows
    them in the input is dropped. *)
Theorem subByte_bytewise (self : AES) (bytes : str) (n : Z) :
  table_ok (sbox self) = true -> table_ok (sboxInv self) = true ->
  is_hex bytes = true -> 0 <= n -> 2 * n <= len bytes ->
  (exists r,
     subByte self bytes n = Ok r /\
     List.length r = (2 * Z.to_nat n)%nat /\ is_hex r = true /\
     bytes_of_hex r
     = map (table_byte (sbox self)) (firstn (Z.to_nat n) (bytes_of_hex bytes))) /\
  (exists r,
     subByteInv self bytes n = Ok r /\
     List.length r = (2 * Z.to_nat n)%nat /\ is_hex r = true /\
     bytes_of_hex r
     = map (table_byte (sboxInv self))
           (firstn (Z.to_nat n) (bytes_of_hex bytes))).
Proof.
  intros Hs Hi Hb Hn L. split; now apply subst_loop_bytes.
Qed.

Lemma subByte_bytewise_witness :
  (exists r,
     subByte std_aes kat_plain 16 = Ok r /\
     List.length r = (2 * Z.to_nat 16)%nat /\ is_hex r = true /\
     bytes_of_hex r
     = map (table_byte (sbox std_aes))
           (firstn (Z.to_nat 16) (bytes_of_hex kat_plain))) /\
  (exists r,
     subByteInv std_aes kat_plain 16 = Ok r /\
     List.length r = (2 * Z.to_nat 16)%nat /\ is_hex r = true /\
     bytes_of_hex r
     = map (table_byte (sboxInv std_aes))
           (firstn (Z.to_nat 16) (bytes_of_hex kat_plain))).
Proof.
  apply (subByte_bytewise std_aes kat_plain 16);
    solve [vm_compute; reflexivity | vm_compute; discriminate].
Defined.

(** X4: through a well-formed table, [subByte(bytes, length)] with
    [length >= 1] raises [ValueError] on every hex string of at most
    [2 * length - 2] digits (one whole byte short, or more): the loop
    reaches an empty slice.  With [length <= 0] it returns the empty
    string, whatever the input and the table. *)
Theorem subByte_short_input (self : AES) (bytes : str) (n : Z) :
  table_ok (sbox self) = true -> is_hex bytes = true ->
  (1 <= n -> len bytes <= 2 * n - 2 ->
   subByte self bytes n = Raise ValueError) /\
  (n <= 0 -> subByte self bytes n = Ok []).
Proof.
  intros Ht Hb. split.
  - intros Hn L. unfold subByte. apply subst_loop_short; try assumption.
    + apply Forall_forall. intros i Hi. unfold range, range2 in Hi.
      apply in_map_iff in Hi as (k & <- & Hk). lia.
    + apply Exists_exists. exists (n - 1). split; [apply In_range; lia|lia].
  - intros Hn. unfold subByte, range, range2.
    now replace (Z.to_nat (n - 0)) with 0%nat by lia.
Qed.

Lemma subByte_short_input_witness :
  (1 <= 4 -> len (hs "0a0b0c") <= 2 * 4 - 2 ->
   subByte std_aes (hs "0a0b0c") 4 = Raise ValueError) /\
  (4 <= 0 -> subByte std_aes (hs "0a0b0c") 4 = Ok []).
Proof.
  apply (subByte_short_input std_aes (hs "0a0b0c") 4); vm_compute; reflexivity.
Defined.

Lemma tables_inverse_spec (sb inv : list cell) (b : Z) :
  tables_inverse sb inv = true -> 0 <= b < 256 ->
  table_byte inv (table_byte sb b) = b.
Proof.
  intros H Hb. unfold tables_inverse in H. rewrite forallb_forall in H.
  apply Z.eqb_eq. apply H. now apply In_range.
Qed.

(** X5: when the two substitution tables are well formed and undo each
    other on every byte, [subByteInv] undoes [subByte]: on a hex string of
    at least [length] bytes, [subByteInv(subByte(bytes, length), length)]
    holds the first [length] bytes of the input again. *)
Theorem subByteInv_subByte (self : AES) (bytes : str) (n : Z) :
  table_ok (sbox self) = true -> table_ok (sboxInv self) = true ->
  tables_inverse (sbox self) (sboxInv self) = true ->
  is_hex bytes = true -> 0 <= n -> 2 * n <= len bytes ->
  exists r r',
    subByte self bytes n = Ok r /\ subByteInv self r n = Ok r' /\
    bytes_of_hex r' = firstn (Z.to_nat n) (bytes_of_hex bytes).
Proof.
  intros Hs Hi Hinv Hb Hn L.
  destruct (subst_loop_bytes (sbox self) bytes n Hs Hb Hn L)
    as (r & Hr & Lr & Hxr & Br).
  destruct (subst_loop_bytes (sboxInv self) r n Hi Hxr Hn
              ltac:(unfold len; lia)) as (r' & Hr' & _ & _ & Br').
  exists r, r'. split; [exact Hr|]. split; [exact Hr'|].
  rewrite Br', Br. rewrite firstn_all2
    by (rewrite length_map, length_firstn; lia).
  rewrite map_map.
  pose proof (bytes_of_hex_range bytes Hb) as F.
  assert (Forall is_byte (firstn (Z.to_nat n) (bytes_of_hex bytes))) as F'
    by (rewrite <- (firstn_skipn (Z.to_nat n) (bytes_of_hex bytes)) in F;
        now apply Forall_app in F).
  clear - Hinv F'.
  induction F' as [|x l Hx _ IH]; [reflexivity|].
  cbn [map]. rewrite IH. f_equal. now apply tables_inverse_spec.
Qed.

Lemma subByteInv_subByte_witness :
  exists r r',
    subByte std_aes kat_plain 16 = Ok r /\ subByteInv std_aes r 16 = Ok r' /\
    bytes_of_hex r' = firstn (Z.to_nat 16) (bytes_of_hex kat_plain).
Proof.
  apply (subByteInv_subByte std_aes kat_plain 16);
    solve [vm_compute; reflexivity | vm_compute; discriminate].
Defined.

(** ** [xor] on operands of any length *)



Lemma int16_lower (ds : list Z) :
  nibs_ok ds -> ds <> [] -> int16 (map hexchar ds) = Ok (value ds).
Proof.
  intros H Hne. rewrite int16_hex.
  - now rewrite nibbles_hexchar.
  - now apply is_lower_is_hex, map_hexchar_lower.
  - destruct ds; [congruence|discriminate].
Qed.

Lemma digits_exist (m : nat) (v : Z) :
  0 <= v < 16 ^ Z.of_nat m -> exists ds, nibs_ok ds /\ value ds = v.
Proof.
  revert v. induction m as [|m IH]; intros v Hv.
  - exists []. split; [constructor|]. change (16 ^ Z.of_nat 0) with 1 in Hv.
    unfold value. simpl. lia.
  - rewrite Nat2Z.inj_succ, Z.pow_succ_r in Hv by lia.
    destruct (IH (v / 16)) as (ds & Hds & Hval).
    { split; [apply Z.div_pos; lia|apply Z.div_lt_upper_bound; lia]. }
    exists (ds ++ [v mod 16]). split.
    + apply Forall_app. split; [assumption|]. constructor; [|constructor].
      apply Z.mod_pos_bound. lia.
    + rewrite value_snoc, Hval. symmetry. apply Z.div_mod. lia.
Qed.

Lemma value_repeat0 (k : nat) (ds : list Z) : value (repeat 0 k ++ ds) = value ds.
Proof. induction k as [|k IH]; [reflexivity|]. exact IH. Qed.

(** [format(v, "x")] of a non-negative number: lower-case digits that
    read back as the number. *)
Lemma format_x_digits (v : Z) :
  0 <= v ->
  exists ds, nibs_ok ds /\ ds <> [] /\ value ds = v /\
             format_x v = map hexchar ds.
Proof.
  intros Hv.
  destruct (digits_exist (Z.to_nat v) v) as (ds & Hds & Hval).
  { split; [assumption|]. rewrite Z2Nat.id by assumption.
    apply Z.pow_gt_lin_r; lia. }
  pose proof (format_x_value ds Hds) as F. rewrite Hval in F.
  destruct (v =? 0) eqn:E.
  - apply Z.eqb_eq in E. exists [0]. split; [repeat constructor; lia|].
    split; [discriminate|]. split; [now rewrite E|exact F].
  - apply Z.eqb_neq in E. exists (strip0 ds).
    destruct (strip0_split ds) as [k Hk].
    assert (value (strip0 ds) = v) as Hs
      by (rewrite <- Hval; rewrite Hk at 2; now rewrite value_repeat0).
    repeat split; try assumption; [now apply strip0_ok|].
    intros E0. rewrite E0 in Hs. unfold value in Hs. simpl in Hs. lia.
Qed.

Lemma zfill_digits (ds : list Z) (n : Z) :
  nibs_ok ds -> ds <> [] ->
  exists k, zfill (map hexchar ds) n = map hexchar (repeat 0 k ++ ds) /\
            n <= len (repeat 0 k ++ ds).
Proof.
  intros H Hne. destruct ds as [|d r]; [congruence|].
  pose proof (Forall_inv H) as Hd. cbv beta in Hd.
  exists (Z.to_nat (n - len (map hexchar (d :: r)))).
  unfold zfill. cbn [map]. rewrite hexchar_not_sign by assumption.
  rewrite map_app, map_hexchar_repeat0. split; [reflexivity|].
  rewrite len_app. unfold len. rewrite repeat_length.
  cbn [List.length]. rewrite length_map. lia.
Qed.

(** X6: on two non-empty hex strings of any lengths and with any
    [length] argument, [xor] returns a non-empty lower-case hex string of
    at least [length] digits that reads back, with [int(_, 16)], as the
    exclusive-or of the two numbers the operands read as: [zfill] pads
    and never truncates. *)
Theorem xor_value (a b : str) (n : Z) :
  is_hex a = true -> is_hex b = true -> a <> [] -> b <> [] ->
  exists va vb r,
    int16 a = Ok va /\ int16 b = Ok vb /\ xor a b n = Ok r /\
    is_lower_hex r = true /\ r <> [] /\ n <= len r /\
    int16 r = Ok (Z.lxor va vb).
Proof.
  intros Ha Hb Na Nb.
  exists (value (nibbles a)), (value (nibbles b)).
  pose proof (value_bounds _ (nibbles_ok a Ha)) as Ba.
  pose proof (value_bounds _ (nibbles_ok b Hb)) as Bb.
  assert (0 <= Z.lxor (value (nibbles a)) (value (nibbles b))) as Hx
    by (apply Z.lxor_nonneg; lia).
  destruct (format_x_digits _ Hx) as (ds & Hds & Hne & Hval & Hf).
  destruct (zfill_digits ds n Hds Hne) as (k & Hz & Hk).
  assert (nibs_ok (repeat 0 k ++ ds)) as Hok.
  { apply Forall_app. split; [|assumption].
    apply Forall_forall. intros x Hx0. apply repeat_spec in Hx0. lia. }
  assert (repeat 0 k ++ ds <> []) as Hne'
    by (destruct ds; [congruence|]; destruct k; discriminate).
  exists (map hexchar (repeat 0 k ++ ds)).
  unfold xor. rewrite !int16_hex by assumption. cbn [bind].
  rewrite Hf, Hz. repeat split.
  - now apply map_hexchar_lower.
  - intros E. apply map_eq_nil in E. contradiction.
  - unfold len in *. now rewrite length_map.
  - rewrite int16_lower by assumption. now rewrite value_repeat0, Hval.
Qed.

Lemma xor_value_witness :
  exists va vb r,
    int16 (hs "FFff") = Ok va /\ int16 (hs "0f") = Ok vb /\
    xor (hs "FFff") (hs "0f") 2 = Ok r /\
    is_lower_hex r = true /\ r <> [] /\ 2 <= len r /\
    int16 r = Ok (Z.lxor va vb).
Proof.
  apply (xor_value (hs "FFff") (hs "0f") 2);
    solve [reflexivity | discriminate].
Defined.

Lemma zipxor_comm (a b : list Z) : zipxor a b = zipxor b a.
Proof.
  revert b. induction a as [|x a IH]; intros [|y b]; try reflexivity.
  rewrite !zipxor_cons, IH. now rewrite Z.lxor_comm.
Qed.





(** ** [expandKey] on keys of 16 bytes or more *)

Lemma nibbles_firstn (n : nat) (s : str) :
  nibbles (firstn n s) = firstn n (nibbles s).
Proof. unfold nibbles. symmetry. apply firstn_map. Qed.

Lemma nibbles_skipn (n : nat) (s : str) :
  nibbles (skipn n s) = skipn n (nibbles s).
Proof. unfold nibbles. symmetry. apply skipn_map. Qed.

Lemma nibbles_app (a b : str) : nibbles (a ++ b) = nibbles a ++ nibbles b.
Proof. apply map_app. Qed.

Lemma nibbles_slice (s : str) (a b : Z) :
  nibbles (slice s a b) = slice (nibbles s) a b.
Proof.
  unfold slice, len. rewrite nibbles_length.
  now rewrite nibbles_firstn, nibbles_skipn.
Qed.

(** A word of the previous key is read inside its first 32 digits. *)
Lemma word_in_block {A : Type} (l : list A) (k : nat) :
  (k + 8 <= 32)%nat ->
  firstn 8 (skipn k (firstn 32 l)) = firstn 8 (skipn k l).
Proof.
  intros H. replace 32%nat with (k + (32 - k))%nat by lia.
  rewrite <- firstn_skipn_comm, firstn_firstn. f_equal. lia.
Qed.

Lemma word_nibbles (p p' : str) (k : nat) :
  (k + 8 <= 32)%nat ->
  nibbles (firstn 32 p) = nibbles (firstn 32 p') ->
  nibbles (firstn 8 (skipn k p)) = nibbles (firstn 8 (skipn k p')).
Proof.
  intros Hk H.
  rewrite <- (word_in_block p k Hk), <- (word_in_block p' k Hk).
  now rewrite !(nibbles_firstn 8), !(nibbles_skipn k), H.
Qed.

Lemma xor_digits_nibbles (a a' b b' : str) :
  nibbles a = nibbles a' -> nibbles b = nibbles b' ->
  xor_digits a b = xor_digits a' b'.
Proof. intros Ha Hb. unfold xor_digits. now rewrite Ha, Hb. Qed.

Lemma byte_at_nibbles (r r' : str) (i : Z) :
  nibbles r = nibbles r' -> byte_at r i = byte_at r' i.
Proof. intros H. unfold byte_at. now rewrite !nibbles_slice, H. Qed.

(** The step reads its previous key only through the values of its first
    32 digits. *)
Lemma next_key_nibbles (t : list cell) (rc p p' : str) :
  nibbles (firstn 32 p) = nibbles (firstn 32 p') ->
  next_key t rc p = next_key t rc p'.
Proof.
  intros H.
  pose proof (word_nibbles p p' 0 ltac:(lia) H) as W0.
  pose proof (word_nibbles p p' 8 ltac:(lia) H) as W1.
  pose proof (word_nibbles p p' 16 ltac:(lia) H) as W2.
  pose proof (word_nibbles p p' 24 ltac:(lia) H) as W3.
  cbn [skipn] in W0.
  assert (sub_word t p = sub_word t p') as Hs.
  { unfold sub_word. apply flat_map_ext. intros i. f_equal.
    apply byte_at_nibbles. unfold rot_word.
    now rewrite !nibbles_app, !(nibbles_skipn 2), !(nibbles_firstn 2), W3. }
  rewrite !next_key_unfold. cbv zeta. rewrite Hs.
  set (t0 := xor_digits (sub_word t p') rc).
  rewrite (xor_digits_nibbles (firstn 8 p) (firstn 8 p') t0 t0 W0 eq_refl).
  set (R0 := xor_digits (firstn 8 p') t0).
  rewrite (xor_digits_nibbles _ _ R0 R0 W1 eq_refl).
  set (R1 := xor_digits (firstn 8 (skipn 8 p')) R0).
  rewrite (xor_digits_nibbles _ _ R1 R1 W2 eq_refl).
  set (R2 := xor_digits (firstn 8 (skipn 16 p')) R1).
  rewrite (xor_digits_nibbles _ _ R2 R2 W3 eq_refl).
  reflexivity.
Qed.

Lemma schedule_from_lower (t : list cell) (idx : list Z) (prev : str) :
  table_ok t = true -> is_hex prev = true -> (32 <= List.length prev)%nat ->
  Forall (fun i => 1 <= i <= 10) idx ->
  Forall (fun k => is_lower_hex k = true /\ List.length k = 32%nat)
         (schedule_from t prev idx).
Proof.
  intros Ht. revert prev. induction idx as [|i idx IH]; intros prev Hp Lp F;
    [constructor|].
  inversion F as [|? ? Hi F']; subst.
  destruct (rcon_at_ok i Hi) as (_ & Hh & Hl & _).
  cbn [schedule_from].
  pose proof (next_key_lower t (rcon_at i) prev Ht Hh Hp Lp) as Hk.
  pose proof (next_key_length t (rcon_at i) prev Ht Hl Hp Lp) as Lk.
  constructor; [now split|].
  apply IH; [now apply is_lower_is_hex|lia|assumption].
Qed.

(** X8: [expandKey] reads the key only through the values of its first
    32 hex digits.  Two hex keys of at least 16 bytes whose first 32
    digits agree up to letter case (the rest may differ in any way) get
    the same round keys 1..10; round key 0 is the key itself, as passed. *)
Theorem expandKey_reads_32_digits (self : AES) (key key' : str) :
  table_ok (sbox self) = true -> Rcon self = Some Rcon_init ->
  is_hex key = true -> is_hex key' = true ->
  (32 <= List.length key)%nat -> (32 <= List.length key')%nat ->
  nibbles (firstn 32 key) = nibbles (firstn 32 key') ->
  exists ks : list str,
    List.length ks = 10%nat /\
    expandKey self key = Ok (Some key :: map Some ks) /\
    expandKey self key' = Ok (Some key' :: map Some ks).
Proof.
  intros Ht HR Hk Hk' Lk Lk' H.
  exists (schedule_from (sbox self) key [1; 2; 3; 4; 5; 6; 7; 8; 9; 10]).
  split; [reflexivity|]. split; [now apply expandKey_closed|].
  rewrite (expandKey_closed self key') by assumption.
  unfold schedule. cbn [map schedule_from].
  now rewrite (next_key_nibbles (sbox self) (rcon_at 1) key key' H).
Qed.

Lemma expandKey_reads_32_digits_witness :
  exists ks : list str,
    List.length ks = 10%nat /\
    expandKey std_aes kat_key = Ok (Some kat_key :: map Some ks) /\
    expandKey std_aes (hs "000102030405060708090A0B0C0D0E0Fffee")
    = Ok (Some (hs "000102030405060708090A0B0C0D0E0Fffee") :: map Some ks).
Proof.
  apply (expandKey_reads_32_digits std_aes kat_key
           (hs "000102030405060708090A0B0C0D0E0Fffee"));
    solve [vm_compute; reflexivity | vm_compute; lia].
Defined.

(** X9: whatever the case and length of a hex key of at least 16 bytes,
    each of the round keys 1..10 that [expandKey] returns is a block of
    exactly 32 lower-case hex digits. *)
Theorem later_round_keys_are_blocks (self : AES) (key : str) :
  table_ok (sbox self) = true -> Rcon self = Some Rcon_init ->
  is_hex key = true -> (32 <= List.length key)%nat ->
  exists ks : list str,
    expandKey self key = Ok (Some key :: map Some ks) /\
    List.length ks = 10%nat /\
    Forall (fun k => is_lower_hex k = true /\ List.length k = 32%nat) ks.
Proof.
  intros Ht HR Hk Lk.
  exists (schedule_from (sbox self) key [1; 2; 3; 4; 5; 6; 7; 8; 9; 10]).
  split; [now apply expandKey_closed|]. split; [reflexivity|].
  apply schedule_from_lower; try assumption. repeat constructor; lia.
Qed.

Lemma later_round_keys_are_blocks_witness :
  exists ks : list str,
    expandKey std_aes (hs "000102030405060708090A0B0C0D0E0Fffee")
    = Ok (Some (hs "000102030405060708090A0B0C0D0E0Fffee") :: map Some ks) /\
    List.length ks = 10%nat /\
    Forall (fun k => is_lower_hex k = true /\ List.length k = 32%nat) ks.
Proof.
  apply (later_round_keys_are_blocks std_aes
           (hs "000102030405060708090A0B0C0D0E0Fffee"));
    solve [vm_compute; reflexivity | vm_compute; lia].
Defined.

(** ** [readTables] *)

Lemma getitem_nth {A : Type} (l : list A) (d : A) (a : nat) :
  (a < List.length l)%nat -> getitem l (0 + Z.of_nat a) = Ok (nth a l d).
Proof.
  intros H. unfold getitem, len.
  destruct (0 + Z.of_nat a <? 0) eqn:E; [apply Z.ltb_lt in E; lia|].
  rewrite E. cbn [orb].
  destruct (_ <=? _) eqn:E2; [apply Z.leb_le in E2; lia|].
  replace (Z.to_nat (0 + Z.of_nat a)) with a by lia.
  destruct (nth_error l a) eqn:N.
  - now rewrite (nth_error_nth _ _ d N).
  - apply nth_error_None in N. lia.
Qed.

Lemma getitem_past {A : Type} (l : list A) (a : nat) :
  (List.length l <= a)%nat -> getitem l (0 + Z.of_nat a) = Raise IndexError.
Proof.
  intros H. unfold getitem, len.
  destruct (0 + Z.of_nat a <? 0) eqn:E; [apply Z.ltb_lt in E; lia|].
  rewrite E. cbn [orb].
  destruct (_ <=? _) eqn:E2; [reflexivity|apply Z.leb_gt in E2; lia].
Qed.

Lemma update_at {A : Type} (pre post : list A) (x v : A) :
  update (pre ++ x :: post) (List.length pre) v = pre ++ v :: post.
Proof.
  induction pre as [|y pre IH]; [reflexivity|].
  cbn [app List.length update]. now rewrite IH.
Qed.

Lemma filled_store (a b : Z) (rows : list str) (i : nat) (old : list cell) :
  (i < List.length old)%nat -> (i < List.length rows)%nat ->
  setitem (filled a b rows i old) (0 + Z.of_nat i)
          (Some (slice (nth i rows []) a b))
  = Ok (filled a b rows (S i) old).
Proof.
  intros Ho Hr. unfold setitem, filled, len.
  rewrite length_app, length_map, length_firstn, length_skipn.
  destruct (0 + Z.of_nat i <? 0) eqn:E; [apply Z.ltb_lt in E; lia|].
  rewrite E. cbn [orb].
  destruct (_ <=? _) eqn:E2; [apply Z.leb_le in E2; lia|].
  replace (Z.to_nat (0 + Z.of_nat i)) with i by lia. f_equal.
  assert (skipn i old = nth i old None :: skipn (S i) old) as So.
  { rewrite <- (firstn_skipn i old) at 1 2.
    clear - Ho. revert i Ho. induction old as [|x old IH]; intros [|i] H;
      simpl in H; try lia; [reflexivity|].
    cbn [firstn skipn app nth]. rewrite <- IH by lia.
    now rewrite !firstn_skipn. }
  assert (firstn (S i) rows = firstn i rows ++ [nth i rows []]) as Fr.
  { clear - Hr. revert i Hr. induction rows as [|x rows IH]; intros [|i] H;
      simpl in H; try lia; [reflexivity|].
    cbn [firstn app nth]. now rewrite <- IH by lia. }
  rewrite So, Fr, map_app. cbn [map]. rewrite <- app_assoc. cbn [app].
  assert (List.length (map (column a b) (firstn i rows)) = i) as Lp
    by (rewrite length_map, length_firstn; lia).
  pose proof (update_at (map (column a b) (firstn i rows)) (skipn (S i) old)
                (nth i old None) (Some (slice (nth i rows []) a b))) as U.
  rewrite Lp in U. exact U.
Qed.


Lemma loaded_0 (rows : list str) (self : AES) : loaded rows 0 self = self.
Proof. now destruct self. Qed.

(** One pass of the loop body on the object that holds rows 0..i-1. *)
Lemma readTables_row (rows : list str) (i : nat) (self : AES) (k : M unit) :
  (i < List.length rows)%nat ->
  (exists n, (i < n)%nat /\ tables_sized n self) ->
  (_ <~ store sbox set_sbox rows (0 + Z.of_nat i) 2 4 ;;
   _ <~ store sboxInv set_sboxInv rows (0 + Z.of_nat i) 4 6 ;;
   _ <~ store mult09 set_mult09 rows (0 + Z.of_nat i) 10 12 ;;
   _ <~ store mult0B set_mult0B rows (0 + Z.of_nat i) 12 14 ;;
   _ <~ store mult0D set_mult0D rows (0 + Z.of_nat i) 14 16 ;;
   _ <~ store mult0E set_mult0E rows (0 + Z.of_nat i) 16 18 ;;
   k) (loaded rows i self)
  = k (loaded rows (S i) self).
Proof.
  intros Hr (n & Hn & S1 & S2 & S3 & S4 & S5 & S6).
  destruct self as [t1 t2 t3 t4 t5 t6 iv rc rk]. cbn in S1, S2, S3, S4, S5, S6.
  unfold loaded. cbn [sbox sboxInv mult09 mult0B mult0D mult0E IV Rcon Rkey].
  unfold bindM, store.
  rewrite !(getitem_nth rows [] i Hr).
  cbn [sbox sboxInv mult09 mult0B mult0D mult0E IV Rcon Rkey
       set_sbox set_sboxInv set_mult09 set_mult0B set_mult0D set_mult0E].
  rewrite (filled_store 2 4) by lia.
  cbn [sbox sboxInv mult09 mult0B mult0D mult0E IV Rcon Rkey
       set_sbox set_sboxInv set_mult09 set_mult0B set_mult0D set_mult0E].
  rewrite (filled_store 4 6) by lia.
  cbn [sbox sboxInv mult09 mult0B mult0D mult0E IV Rcon Rkey
       set_sbox set_sboxInv set_mult09 set_mult0B set_mult0D set_mult0E].
  rewrite (filled_store 10 12) by lia.
  cbn [sbox sboxInv mult09 mult0B mult0D mult0E IV Rcon Rkey
       set_sbox set_sboxInv set_mult09 set_mult0B set_mult0D set_mult0E].
  rewrite (filled_store 12 14) by lia.
  cbn [sbox sboxInv mult09 mult0B mult0D mult0E IV Rcon Rkey
       set_sbox set_sboxInv set_mult09 set_mult0B set_mult0D set_mult0E].
  rewrite (filled_store 14 16) by lia.
  cbn [sbox sboxInv mult09 mult0B mult0D mult0E IV Rcon Rkey
       set_sbox set_sboxInv set_mult09 set_mult0B set_mult0D set_mult0E].
  rewrite (filled_store 16 18) by lia.
  reflexivity.
Qed.

Lemma readTables_row_past (rows : list str) (i : nat) (self : AES) (k : M unit) :
  (List.length rows <= i)%nat ->
  (_ <~ store sbox set_sbox rows (0 + Z.of_nat i) 2 4 ;; k) self
  = (Raise IndexError, self).
Proof.
  intros H. unfold bindM, store. now rewrite getitem_past.
Qed.

Lemma readTables_loop_rows (rows : list str) (n : nat) (self : AES) :
  tables_sized n self ->
  forall (m a : nat),
    (a + m <= n)%nat -> (a <= List.length rows)%nat ->
    readTables_loop rows (offsets a m) (loaded rows a self)
    = if (a + m <=? List.length rows)%nat
      then (Ok tt, loaded rows (a + m) self)
      else (Raise IndexError, loaded rows (List.length rows) self).
Proof.
  intros Hs. induction m as [|m IH]; intros a Ha Hr.
  - rewrite Nat.add_0_r. destruct (_ <=? _)%nat eqn:E; [reflexivity|].
    apply Nat.leb_gt in E. lia.
  - unfold offsets. cbn [seq map readTables_loop]. fold (offsets (S a) m).
    destruct (Nat.eq_dec a (List.length rows)) as [->|Hd].
    + rewrite readTables_row_past by lia.
      destruct (_ <=? _)%nat eqn:E; [apply Nat.leb_le in E; lia|reflexivity].
    + rewrite readTables_row; [|lia|exists n; split; [lia|assumption]].
      rewrite IH by lia. now replace (S a + m)%nat with (a + S m)%nat by lia.
Qed.

(** The outcome of [readTables] on an object with tables of 256 cells. *)
Lemma readTables_cases (lines : list str) (self : AES) :
  tables_sized 256 self ->
  readTables (Some lines) self
  = if (256 <=? List.length (skipn 2 lines))%nat
    then (Ok tt, loaded (skipn 2 lines) 256 self)
    else (Raise IndexError,
          loaded (skipn 2 lines) (List.length (skipn 2 lines)) self).
Proof.
  intros Hs. unfold readTables. rewrite slice_from_nonneg by lia.
  change (Z.to_nat 2) with 2%nat. rewrite range_offsets.
  change (Z.to_nat 256) with 256%nat.
  rewrite <- (loaded_0 (skipn 2 lines) self) at 1.
  now rewrite (readTables_loop_rows _ 256 self Hs 256 0) by lia.
Qed.

Lemma filled_all (a b : Z) (rows : list str) (old : list cell) :
  List.length old = 256%nat -> (256 <= List.length rows)%nat ->
  filled a b rows 256 old = map (column a b) (firstn 256 rows).
Proof.
  intros Lo Lr. unfold filled. rewrite skipn_all2 by lia. apply app_nil_r.
Qed.

(** X10: on an object whose six tables have 256 cells, and a file of at
    least 258 lines, [readTables] returns and replaces every cell: cell i
    of a table is the fixed column of line i + 2 (columns 2-4, 4-6, 10-12,
    12-14, 14-16, 16-18 for sbox, sboxInv, mult09, mult0B, mult0D,
    mult0E).  The two heading lines and the lines after the 258th are not
    read; IV, Rcon and Rkey are not touched. *)
Theorem readTables_loads_rows (lines : list str) (self : AES) :
  tables_sized 256 self -> (258 <= List.length lines)%nat ->
  exists self',
    readTables (Some lines) self = (Ok tt, self') /\
    sbox self' = map (column 2 4) (firstn 256 (skipn 2 lines)) /\
    sboxInv self' = map (column 4 6) (firstn 256 (skipn 2 lines)) /\
    mult09 self' = map (column 10 12) (firstn 256 (skipn 2 lines)) /\
    mult0B self' = map (column 12 14) (firstn 256 (skipn 2 lines)) /\
    mult0D self' = map (column 14 16) (firstn 256 (skipn 2 lines)) /\
    mult0E self' = map (column 16 18) (firstn 256 (skipn 2 lines)) /\
    IV self' = IV self /\ Rcon self' = Rcon self /\ Rkey self' = Rkey self.
Proof.
  intros Hs Hl. pose proof Hs as (S1 & S2 & S3 & S4 & S5 & S6).
  assert (256 <= List.length (skipn 2 lines))%nat as Hr
    by (rewrite length_skipn; lia).
  exists (loaded (skipn 2 lines) 256 self). split.
  - rewrite readTables_cases by assumption.
    apply Nat.leb_le in Hr. now rewrite Hr.
  - unfold loaded. cbn [sbox sboxInv mult09 mult0B mult0D mult0E IV Rcon Rkey].
    rewrite !filled_all by assumption. repeat split.
Qed.

Lemma readTables_loads_rows_witness :
  exists self',
    readTables tables_txt (blank_self kat_iv) = (Ok tt, self') /\
    sbox self' = map (column 2 4) (firstn 256 (map table_row (range 256))) /\
    sboxInv self' = map (column 4 6) (firstn 256 (map table_row (range 256))) /\
    mult09 self' = map (column 10 12) (firstn 256 (map table_row (range 256))) /\
    mult0B self' = map (column 12 14) (firstn 256 (map table_row (range 256))) /\
    mult0D self' = map (column 14 16) (firstn 256 (map table_row (range 256))) /\
    mult0E self' = map (column 16 18) (firstn 256 (map table_row (range 256))) /\
    IV self' = IV (blank_self kat_iv) /\ Rcon self' = Rcon (blank_self kat_iv) /\
    Rkey self' = Rkey (blank_self kat_iv).
Proof.
  apply (readTables_loads_rows
           (hs "AES tables" :: hs "x S Si 02 03 09 0B 0D 0E"
              :: map table_row (range 256)) (blank_self kat_iv)).
  - repeat split.
  - vm_compute. lia.
Defined.

(** X11: on an object whose six tables have 256 cells, a file of fewer
    than 258 lines makes [readTables] raise [IndexError] after it has
    stored the rows there are: the object is left with the first cells of
    every table replaced (as many as lines follow the two headings) and
    the others as before.  A file that cannot be opened raises
    [FileNotFoundError] and leaves the object as it was. *)
Theorem readTables_short_file (lines : list str) (self : AES) :
  tables_sized 256 self -> (List.length lines < 258)%nat ->
  exists self',
    readTables (Some lines) self = (Raise IndexError, self') /\
    self' = loaded (skipn 2 lines) (List.length lines - 2) self /\
    sbox self' = map (column 2 4) (skipn 2 lines)
                   ++ skipn (List.length lines - 2) (sbox self) /\
    readTables None self = (Raise FileNotFoundError, self).
Proof.
  intros Hs Hl.
  assert (List.length (skipn 2 lines) = (List.length lines - 2)%nat) as Lr
    by apply length_skipn.
  exists (loaded (skipn 2 lines) (List.length lines - 2) self). split.
  - rewrite readTables_cases by assumption. rewrite Lr.
    destruct (_ <=? _)%nat eqn:E; [apply Nat.leb_le in E; lia|reflexivity].
  - split; [reflexivity|]. split; [|reflexivity].
    unfold loaded, filled. cbn [sbox]. rewrite <- Lr. now rewrite firstn_all.
Qed.

Lemma readTables_short_file_witness :
  exists self',
    readTables (Some [hs "h1"; hs "h2"; hs "00637c"]) (blank_self kat_iv)
    = (Raise IndexError, self') /\
    self' = loaded (skipn 2 [hs "h1"; hs "h2"; hs "00637c"])
                   (List.length [hs "h1"; hs "h2"; hs "00637c"] - 2)
                   (blank_self kat_iv) /\
    sbox self' = map (column 2 4) (skipn 2 [hs "h1"; hs "h2"; hs "00637c"])
                   ++ skipn (List.length [hs "h1"; hs "h2"; hs "00637c"] - 2)
                        (sbox (blank_self kat_iv)) /\
    readTables None (blank_self kat_iv)
    = (Raise FileNotFoundError, blank_self kat_iv).
Proof.
  apply (readTables_short_file [hs "h1"; hs "h2"; hs "00637c"]
           (blank_self kat_iv)).
  - repeat split.
  - vm_compute. lia.
Defined.

(** ** What holds of every constructed object *)
















(** ** The IV *)

Lemma expandKey_ext (self1 self2 : AES) (key : str) :
  sbox self1 = sbox self2 -> Rcon self1 = Rcon self2 ->
  expandKey self1 key = expandKey self2 key.
Proof.
  intros Hs Hr. unfold expandKey. destruct (setitem _ _ _); cbn [bind];
    [|reflexivity].
  now apply expandKey_loop_ext.
Qed.

Lemma store_IV (get : AES -> list cell) (set : AES -> list cell -> AES)
      (tables : list str) (i a b : Z) (self : AES) :
  (forall s t, IV (set s t) = IV s) ->
  IV (snd (store get set tables i a b self)) = IV self.
Proof.
  intros H. unfold store. destruct (getitem tables i); [|reflexivity].
  destruct (setitem _ _ _); [apply H|reflexivity].
Qed.

Lemma bindM_IV {A B : Type} (m : M A) (k : A -> M B) (self : AES) :
  (forall s, IV (snd (m s)) = IV s) ->
  (forall a s, IV (snd (k a s)) = IV s) ->
  IV (snd (bindM m k self)) = IV self.
Proof.
  intros Hm Hk. unfold bindM. specialize (Hm self).
  destruct (m self) as [[a|e] s']; cbn [snd] in *; [|assumption].
  now rewrite Hk.
Qed.

Lemma readTables_loop_IV (tables : list str) (idx : list Z) (self : AES) :
  IV (snd (readTables_loop tables idx self)) = IV self.
Proof.
  revert self. induction idx as [|i idx IH]; intros self; [reflexivity|].
  cbn [readTables_loop].
  repeat (apply bindM_IV;
          [intros ?; apply store_IV; reflexivity|intros _ ?]).
  apply IH.
Qed.

Lemma run_IV (file : resource) (cs : list call) (self : AES) :
  IV (run file cs self) = IV self.
Proof.
  revert self. induction cs as [|c cs IH]; intros self; [reflexivity|].
  cbn [run]. rewrite IH. destruct c; try reflexivity.
  cbn [invoke]. apply bindM_IV; [|reflexivity].
  intros s. unfold readTables. destruct file; [|reflexivity].
  apply readTables_loop_IV.
Qed.

(** X13: the constructor stores the IV and never reads it, and no method
    reads or changes it afterwards.  With another IV the constructor
    fails with the same exception or returns the same object but for the
    stored IV; the IV is not checked in any way (length, hex digits); and
    after any method calls the object still holds the IV it was built
    with. *)
Theorem init_never_reads_IV (file : resource) (key iv iv' : str) :
  init file key iv'
  = match init file key iv with
    | Ok aes => Ok (set_IV aes iv')
    | Raise e => Raise e
    end /\
  forall aes, init file key iv = Ok aes ->
    IV aes = iv /\
    forall (file' : resource) (cs : list call), IV (run file' cs aes) = iv.
Proof.
  assert (forall aes, init file key iv = Ok aes -> IV aes = iv) as HIV.
  { intros aes. rewrite init_unfold.
    pose proof (fun idx t => readTables_loop_IV t idx (blank_self iv)) as R.
    unfold readTables. destruct file as [lines|]; [|discriminate].
    specialize (R (range 256) (slice_from lines 2)).
    destruct (readTables_loop _ _ _) as [[u|e] s]; [|discriminate].
    cbn [snd] in R. intros H. apply bind_ok in H as (rk & _ & [= <-]).
    exact R. }
  split.
  - rewrite !init_unfold. destruct file as [lines|]; [|reflexivity].
    rewrite !readTables_cases by (repeat split).
    destruct (_ <=? _)%nat; [|reflexivity].
    rewrite (expandKey_ext
               (set_Rcon (loaded (skipn 2 lines) 256 (blank_self iv')) Rcon_init)
               (set_Rcon (loaded (skipn 2 lines) 256 (blank_self iv)) Rcon_init)
               key eq_refl eq_refl).
    destruct (expandKey _ key); reflexivity.
  - intros aes H. split; [now apply HIV|].
    intros file' cs. rewrite run_IV. now apply HIV.
Qed.

(** ** [padInv] never alters what it keeps *)




Lemma padInv_cases_witness :
  let p := nth (4 - 1) (bytes_of_hex (hs "aabb0202")) 0 in
  ((Z.to_nat p <= 4)%nat ->
   (forall j, (j < Z.to_nat p)%nat ->
              nth (4 - 1 - j) (bytes_of_hex (hs "aabb0202")) 0 = p) ->
   padInv (hs "aabb0202") = Ok (firstn (2 * (4 - Z.to_nat p)) (hs "aabb0202"))) /\
  ((exists j, (j < Z.to_nat p)%nat /\ (j < 4)%nat /\
              nth (4 - 1 - j) (bytes_of_hex (hs "aabb0202")) 0 <> p) ->
   padInv (hs "aabb0202") = Ok (hs "aabb0202")) /\
  ((4 < Z.to_nat p)%nat ->
   (forall j, (j < 4)%nat ->
              nth (4 - 1 - j) (bytes_of_hex (hs "aabb0202")) 0 = p) ->
   padInv (hs "aabb0202") = Raise ValueError).
Proof.
  apply (padInv_cases (hs "aabb0202") 4); solve [reflexivity | lia].
Defined.

(** ** The key schedule can be run backwards *)

Lemma app_inj_length {A : Type} (a a' b b' : list A) :
  List.length a = List.length a' -> a ++ b = a' ++ b' -> a = a' /\ b = b'.
Proof.
  revert a'. induction a as [|x a IH]; intros [|x' a'] L H; try discriminate.
  - now split.
  - injection H as -> H. destruct (IH a' ltac:(simpl in L; lia) H) as [-> ->].
    now split.
Qed.

Lemma zipxor_cancel (a a' c : list Z) :
  List.length a = List.length c -> List.length a' = List.length c ->
  zipxor a c = zipxor a' c -> a = a'.
Proof.
  intros La La' H.
  rewrite <- (zipxor_involutive a c La), <- (zipxor_involutive a' c La').
  now rewrite H.
Qed.

Lemma xor_digits_cancel (a a' c : str) :
  is_hex a = true -> is_hex a' = true -> is_hex c = true ->
  List.length a = List.length c -> List.length a' = List.length c ->
  xor_digits a c = xor_digits a' c -> nibbles a = nibbles a'.
Proof.
  intros Ha Ha' Hc La La' H.
  apply (f_equal nibbles) in H. rewrite !nibbles_xor_digits in H by assumption.
  apply (zipxor_cancel _ _ (nibbles c)); rewrite ?nibbles_length; assumption.
Qed.

Lemma block_words (p : str) :
  List.length p = 32%nat ->
  p = firstn 8 p ++ firstn 8 (skipn 8 p) ++ firstn 8 (skipn 16 p)
        ++ firstn 8 (skipn 24 p).
Proof.
  intros L.
  rewrite <- (firstn_skipn 8 p) at 1. f_equal.
  rewrite <- (firstn_skipn 8 (skipn 8 p)) at 1. f_equal.
  rewrite skipn_skipn. change (8 + 8)%nat with 16%nat.
  rewrite <- (firstn_skipn 8 (skipn 16 p)) at 1. f_equal.
  rewrite skipn_skipn. change (8 + 16)%nat with 24%nat.
  symmetry. apply firstn_all2. rewrite length_skipn. lia.
Qed.

(** The previous round key can be read off the next one. *)
Lemma next_key_inj (t : list cell) (rc p p' : str) :
  table_ok t = true -> is_hex rc = true -> List.length rc = 8%nat ->
  is_hex p = true -> is_hex p' = true ->
  List.length p = 32%nat -> List.length p' = 32%nat ->
  next_key t rc p = next_key t rc p' -> nibbles p = nibbles p'.
Proof.
  intros Ht Hrc Lrc Hp Hp' Lp Lp' H.
  assert (32 <= List.length p)%nat as Gp by lia.
  assert (32 <= List.length p')%nat as Gp' by lia.
  destruct (words_hex p Hp) as (H0 & H1 & H2 & H3).
  destruct (words_hex p' Hp') as (H0' & H1' & H2' & H3').
  destruct (words_length p Gp) as (L0 & L1 & L2 & L3).
  destruct (words_length p' Gp') as (L0' & L1' & L2' & L3').
  destruct (sub_word_ok t p Ht Hp Gp) as [Hs Ls].
  destruct (sub_word_ok t p' Ht Hp' Gp') as [Hs' Ls'].
  rewrite !next_key_unfold in H. cbv zeta in H.
  set (t0 := xor_digits (sub_word t p) rc) in *.
  set (t0' := xor_digits (sub_word t p') rc) in *.
  set (R0 := xor_digits (firstn 8 p) t0) in *.
  set (R0' := xor_digits (firstn 8 p') t0') in *.
  set (R1 := xor_digits (firstn 8 (skipn 8 p)) R0) in *.
  set (R1' := xor_digits (firstn 8 (skipn 8 p')) R0') in *.
  set (R2 := xor_digits (firstn 8 (skipn 16 p)) R1) in *.
  set (R2' := xor_digits (firstn 8 (skipn 16 p')) R1') in *.
  assert (is_hex t0 = true /\ List.length t0 = 8%nat) as [Ht0 Lt0]
    by (subst t0; split; [now apply is_lower_is_hex, xor_digits_lower
                         |rewrite xor_digits_length; lia]).
  assert (is_hex t0' = true /\ List.length t0' = 8%nat) as [Ht0' Lt0']
    by (subst t0'; split; [now apply is_lower_is_hex, xor_digits_lower
                          |rewrite xor_digits_length; lia]).
  assert (is_hex R0 = true /\ List.length R0 = 8%nat) as [HR0 LR0]
    by (subst R0; split; [now apply is_lower_is_hex, xor_digits_lower
                         |rewrite xor_digits_length; lia]).
  assert (is_hex R0' = true /\ List.length R0' = 8%nat) as [HR0' LR0']
    by (subst R0'; split; [now apply is_lower_is_hex, xor_digits_lower
                          |rewrite xor_digits_length; lia]).
  assert (is_hex R1 = true /\ List.length R1 = 8%nat) as [HR1 LR1]
    by (subst R1; split; [now apply is_lower_is_hex, xor_digits_lower
                         |rewrite xor_digits_length; lia]).
  assert (is_hex R1' = true /\ List.length R1' = 8%nat) as [HR1' LR1']
    by (subst R1'; split; [now apply is_lower_is_hex, xor_digits_lower
                          |rewrite xor_digits_length; lia]).
  assert (is_hex R2 = true /\ List.length R2 = 8%nat) as [HR2 LR2]
    by (subst R2; split; [now apply is_lower_is_hex, xor_digits_lower
                         |rewrite xor_digits_length; lia]).
  assert (is_hex R2' = true /\ List.length R2' = 8%nat) as [HR2' LR2']
    by (subst R2'; split; [now apply is_lower_is_hex, xor_digits_lower
                          |rewrite xor_digits_length; lia]).
  apply app_inj_length in H as [E0 H]; [|lia].
  apply app_inj_length in H as [E1 H]; [|lia].
  apply app_inj_length in H as [E2 E3]; [|lia].
  rewrite <- E2 in E3. apply xor_digits_cancel in E3; try assumption; try lia.
  unfold R2' in E2. rewrite <- E1 in E2. fold R2 in E2. unfold R2 in E2.
  apply xor_digits_cancel in E2; try assumption; try lia.
  unfold R1' in E1. rewrite <- E0 in E1. unfold R1 in E1.
  apply xor_digits_cancel in E1; try assumption; try lia.
  assert (sub_word t p = sub_word t p') as Es.
  { unfold sub_word. apply flat_map_ext. intros i. f_equal.
    apply byte_at_nibbles. unfold rot_word.
    now rewrite !nibbles_app, !(nibbles_skipn 2), !(nibbles_firstn 2), E3. }
  assert (t0 = t0') as Et by (subst t0 t0'; now rewrite Es).
  unfold R0, R0' in E0. rewrite <- Et in E0.
  apply xor_digits_cancel in E0; try assumption; try lia.
  rewrite (block_words p Lp), (block_words p' Lp'), !nibbles_app.
  now rewrite E0, E1, E2, E3.
Qed.

Lemma lower_nibbles_eq (a b : str) :
  is_lower_hex a = true -> is_lower_hex b = true ->
  nibbles a = nibbles b -> a = b.
Proof.
  intros Ha Hb H. rewrite <- (hexchar_nibbles a Ha), <- (hexchar_nibbles b Hb).
  now rewrite H.
Qed.

Lemma schedule_from_inj (t : list cell) (idx : list Z) :
  table_ok t = true -> Forall (fun i => 1 <= i <= 10) idx ->
  forall (p p' : str) (j : nat),
    is_hex p = true -> is_hex p' = true ->
    List.length p = 32%nat -> List.length p' = 32%nat ->
    (j < List.length idx)%nat ->
    nth j (schedule_from t p idx) [] = nth j (schedule_from t p' idx) [] ->
    nibbles p = nibbles p'.
Proof.
  intros Ht F. induction F as [|i idx Hi _ IH]; intros p p' j Hp Hp' Lp Lp' Hj H;
    [simpl in Hj; lia|].
  destruct (rcon_at_ok i Hi) as (_ & Hh & Hl & _).
  cbn [schedule_from] in H.
  pose proof (next_key_lower t (rcon_at i) p Ht Hh Hp ltac:(lia)) as Kl.
  pose proof (next_key_lower t (rcon_at i) p' Ht Hh Hp' ltac:(lia)) as Kl'.
  pose proof (next_key_length t (rcon_at i) p Ht Hl Hp ltac:(lia)) as Kn.
  pose proof (next_key_length t (rcon_at i) p' Ht Hl Hp' ltac:(lia)) as Kn'.
  apply (next_key_inj t (rcon_at i)); try assumption.
  destruct j as [|j]; [exact H|].
  cbn [nth] in H. apply lower_nibbles_eq; try assumption.
  apply (IH _ _ j); auto using is_lower_is_hex. simpl in Hj. lia.
Qed.

Lemma nth_map_Some (l : list str) (j : nat) :
  (j < List.length l)%nat -> nth j (map Some l) None = Some (nth j l []).
Proof.
  revert j. induction l as [|x l IH]; intros [|j] H; simpl in H; try lia.
  - reflexivity.
  - apply (IH j). lia.
Qed.

Lemma schedule_from_len (t : list cell) (p : str) (idx : list Z) :
  List.length (schedule_from t p idx) = List.length idx.
Proof.
  revert p. induction idx as [|i idx IH]; intros p; [reflexivity|].
  cbn [schedule_from List.length]. now rewrite IH.
Qed.

(** X16: the key schedule can be run backwards: any single round key
    i, 1 <= i <= 10, determines the root key.  If [expandKey] gives two
    16-byte keys the same round key i for some i, the two keys have the
    same digits (they differ at most in letter case). *)
Theorem round_key_determines_key
        (self : AES) (key key' : str) (Rk Rk' : list cell) (i : nat) :
  table_ok (sbox self) = true -> Rcon self = Some Rcon_init ->
  is_hex key = true -> is_hex key' = true ->
  List.length key = 32%nat -> List.length key' = 32%nat ->
  expandKey self key = Ok Rk -> expandKey self key' = Ok Rk' ->
  (1 <= i <= 10)%nat -> nth i Rk None = nth i Rk' None ->
  nibbles key = nibbles key' /\ bytes_of_hex key = bytes_of_hex key'.
Proof.
  intros Ht HR Hk Hk' Lk Lk' E E' Hi H.
  rewrite expandKey_closed in E, E' by (auto; lia).
  injection E as <-. injection E' as <-.
  destruct i as [|j]; [lia|].
  assert (forall (l : list str) (d : str),
             nth (S j) (map Some (key :: l)) None = nth j (map Some l) None) as Hd
    by reflexivity.
  unfold schedule in H.
  change (nth (S j) (map Some (key :: ?l)) None) with (nth j (map Some l) None) in H.
  change (nth (S j) (map Some (key' :: ?l)) None) with (nth j (map Some l) None) in H.
  clear Hd.
  assert (nibbles key = nibbles key') as N.
  { apply (schedule_from_inj (sbox self) [1; 2; 3; 4; 5; 6; 7; 8; 9; 10] Ht
             ltac:(repeat constructor; lia) key key' j); try assumption.
    - simpl. lia.
    - pose proof (nth_map_Some
                    (schedule_from (sbox self) key [1; 2; 3; 4; 5; 6; 7; 8; 9; 10]) j
                    ltac:(rewrite schedule_from_len; simpl; lia)) as A.
      pose proof (nth_map_Some
                    (schedule_from (sbox self) key' [1; 2; 3; 4; 5; 6; 7; 8; 9; 10]) j
                    ltac:(rewrite schedule_from_len; simpl; lia)) as A'.
      assert (Some (nth j (schedule_from (sbox self) key
                                         [1; 2; 3; 4; 5; 6; 7; 8; 9; 10]) [])
              = Some (nth j (schedule_from (sbox self) key'
                                           [1; 2; 3; 4; 5; 6; 7; 8; 9; 10]) []))
        as B by exact (eq_trans (eq_sym A) (eq_trans H A')).
      now injection B. }
  split; [exact N|].
  clear - N. revert key' N.
  induction key as [|x|x y key IH] using pair_ind; intros [|x' [|y' key']] N;
    try discriminate; try reflexivity.
  cbn [nibbles map] in N. injection N as Ex Ey N.
  cbn [bytes_of_hex]. rewrite Ex, Ey. f_equal. now apply IH.
Qed.

Lemma round_key_determines_key_witness :
  nibbles kat_key = nibbles (hs "000102030405060708090A0B0C0D0E0F") /\
  bytes_of_hex kat_key = bytes_of_hex (hs "000102030405060708090A0B0C0D0E0F").
Proof.
  apply (round_key_determines_key std_aes kat_key
           (hs "000102030405060708090A0B0C0D0E0F")
           (map Some (schedule (sbox std_aes) kat_key))
           (map Some (schedule (sbox std_aes)
                               (hs "000102030405060708090A0B0C0D0E0F"))) 10);
    solve [vm_compute; reflexivity | lia].
Defined.

(** ** The constructor needs the table file *)

(** X17: the constructor loads the tables before it looks at the key:
    when the table file cannot be opened it raises [FileNotFoundError],
    and when the file has fewer than 258 lines it raises [IndexError],
    whatever the key and the IV; no object is returned. *)
Theorem init_needs_tables (lines : list str) (key iv : str) :
  (List.length lines < 258)%nat ->
  init None key iv = Raise FileNotFoundError /\
  init (Some lines) key iv = Raise IndexError.
Proof.
  intros H. split; [reflexivity|].
  rewrite init_unfold, readTables_cases by (repeat split).
  rewrite length_skipn.
  destruct (_ <=? _)%nat eqn:E; [apply Nat.leb_le in E; lia|reflexivity].
Qed.

Lemma init_needs_tables_witness :
  init None kat_key kat_iv = Raise FileNotFoundError /\
  init (Some [hs "h1"; hs "h2"; hs "00637c"]) kat_key kat_iv = Raise IndexError.
Proof.
  apply (init_needs_tables [hs "h1"; hs "h2"; hs "00637c"] kat_key kat_iv).
  vm_compute. lia.
Defined.
